(** * Ai-Review: the review client (Home component) and the gateway service

    A shallow embedding of
      - the React component [Home] (submitHandler, handleCopyAll,
        handleCopyCode) and
      - the gateway service [main] of ai.service.js,
    together with the parts of the JavaScript runtime they rely on:
    strings as sequences of UTF-16 code units, [String.prototype.trim],
    [Array.prototype.join] and a backtracking matcher for the regular
    expression literal used by handleCopyCode. *)

From Stdlib Require Import String Ascii.
From Stdlib Require Import NArith Arith Bool Lia List.
Import ListNotations.
Local Open Scope list_scope.

Set Implicit Arguments.

(* ================================================================== *)
(** * JavaScript strings *)
(* ================================================================== *)

Module JS.

(** A JavaScript string is a sequence of UTF-16 code units. *)
Definition code_unit := N.
Definition jsstring := list code_unit.

(** ASCII literals, written as Rocq strings, as code units. *)
Definition js (s : string) : jsstring :=
  map N_of_ascii (list_ascii_of_string s).

Definition bt : code_unit := 96%N.   (* U+0060, the backtick *)
Definition nl : code_unit := 10%N.   (* U+000A, "\n" *)

(** The empty string is the only falsy string. *)
Definition falsy (s : jsstring) : bool :=
  match s with [] => true | _ :: _ => false end.

(** WhiteSpace and LineTerminator code points: what [trim] strips and
    what the class escape \s matches. *)
Definition is_space (c : code_unit) : bool :=
  ((9 <=? c) && (c <=? 13) || (c =? 32) || (c =? 160) || (c =? 5760)
   || (8192 <=? c) && (c <=? 8202)
   || (c =? 8232) || (c =? 8233) || (c =? 8239) || (c =? 8287)
   || (c =? 12288) || (c =? 65279))%N.

(** The class escape \w (no i or u flag): [A-Za-z0-9_]. *)
Definition is_word (c : code_unit) : bool :=
  ((97 <=? c) && (c <=? 122) || (65 <=? c) && (c <=? 90)
   || (48 <=? c) && (c <=? 57) || (c =? 95))%N.

(** The class [\s\S]. *)
Definition space_or_not (c : code_unit) : bool :=
  is_space c || negb (is_space c).

(** String.prototype.trimStart / trimEnd / trim. *)
Fixpoint trimStart (s : jsstring) : jsstring :=
  match s with
  | c :: s' => if is_space c then trimStart s' else s
  | [] => []
  end.

Definition trimEnd (s : jsstring) : jsstring := rev (trimStart (rev s)).

Definition trim (s : jsstring) : jsstring := trimEnd (trimStart s).

(** Array.prototype.join on an array of strings. *)
Fixpoint join (sep : jsstring) (xs : list jsstring) : jsstring :=
  match xs with
  | [] => []
  | [x] => x
  | x :: xs' => x ++ sep ++ join sep xs'
  end.

(* ------------------------------------------------------------------ *)
(** ** Regular expressions: a backtracking matcher *)
(* ------------------------------------------------------------------ *)

(** The fragment of the pattern language the component uses.  The
    quantified atoms of the source pattern are character classes. *)
Inductive regex : Type :=
| Lit (c : code_unit)                  (* a pattern character *)
| Seq (r1 r2 : regex)                  (* r1 r2 *)
| OptG (r : regex)                     (* (?:r)?  greedy *)
| PlusG (cls : code_unit -> bool)      (* cls+    greedy *)
| StarL (cls : code_unit -> bool)      (* cls*?   lazy *)
| Group (r : regex).                   (* (r)     capturing group 1 *)

(** Capture 1: [None] is JavaScript's undefined. *)
Definition capture := option jsstring.

(** cls+ followed by the continuation [k]: take as many as possible,
    give back one at a time. *)
Fixpoint plus_greedy {R} (cls : code_unit -> bool) (s : jsstring)
    (k : jsstring -> option R) : option R :=
  match s with
  | c :: s' =>
      if cls c then
        match plus_greedy cls s' k with
        | Some x => Some x
        | None => k s'
        end
      else None
  | [] => None
  end.

(** cls*? followed by [k]: try the continuation first, take one more
    only when it fails. *)
Fixpoint star_lazy {R} (cls : code_unit -> bool) (s : jsstring)
    (k : jsstring -> option R) : option R :=
  match k s with
  | Some x => Some x
  | None =>
      match s with
      | c :: s' => if cls c then star_lazy cls s' k else None
      | [] => None
      end
  end.

(** The matcher, in continuation-passing style: [s] is what is left of
    the input, [cap] the capture so far, [k] what has to match next. *)
Fixpoint rmatch {R} (r : regex) (s : jsstring) (cap : capture)
    (k : jsstring -> capture -> option R) : option R :=
  match r with
  | Lit c =>
      match s with
      | c' :: s' => if (c' =? c)%N then k s' cap else None
      | [] => None
      end
  | Seq r1 r2 => rmatch r1 s cap (fun s' cap' => rmatch r2 s' cap' k)
  | OptG r' =>
      match rmatch r' s cap k with
      | Some x => Some x
      | None => k s cap
      end
  | PlusG cls => plus_greedy cls s (fun s' => k s' cap)
  | StarL cls => star_lazy cls s (fun s' => k s' cap)
  | Group r' =>
      rmatch r' s cap
        (fun s' _ => k s' (Some (firstn (length s - length s') s)))
  end.

(** A match object: m[0] and m[1]. *)
Record match_result : Type := MkMatch {
  m_whole : jsstring;
  m_group1 : capture
}.

(** One attempt, anchored at the start of [s]; on success the match
    and what follows it. *)
Definition exec_at (r : regex) (s : jsstring)
  : option (match_result * jsstring) :=
  rmatch r s None
    (fun rest cap =>
       Some (MkMatch (firstn (length s - length rest) s) cap, rest)).

(** RegExpBuiltinExec for a global pattern: try at lastIndex, then one
    code unit further, up to the end of the input. *)
Fixpoint exec (r : regex) (s : jsstring)
  : option (match_result * jsstring) :=
  match exec_at r s with
  | Some res => Some res
  | None =>
      match s with
      | _ :: s' => exec r s'
      | [] => None
      end
  end.

(** The iteration of String.prototype.matchAll: [s] is the input from
    lastIndex on; after an empty match lastIndex moves one further. *)
Fixpoint matchAll_from (fuel : nat) (r : regex) (s : jsstring)
  : list match_result :=
  match fuel with
  | 0 => []
  | S fuel' =>
      match exec r s with
      | None => []
      | Some (m, rest) =>
          m :: match m_whole m, rest with
               | _ :: _, _ => matchAll_from fuel' r rest
               | [], _ :: rest' => matchAll_from fuel' r rest'
               | [], [] => []
               end
      end
  end.

(** [...s.matchAll(r)]: every iteration consumes a code unit, so
    [length s + 1] rounds are enough. *)
Definition matchAll (r : regex) (s : jsstring) : list match_result :=
  matchAll_from (S (length s)) r s.

End JS.

(* ================================================================== *)
(** * Effects: a trace of calls and a completion *)
(* ================================================================== *)

Module Eff.
Import JS.

(** What a catch clause receives. *)
Inductive error_kind : Type :=
| NetworkError | AuthError | MalformedResponse | TypeError | OtherError.

Record js_error : Type := MkError {
  err_kind : error_kind;
  err_message : jsstring
}.

(** A computation has run the calls of its trace, in order, and has
    completed normally with a value or abruptly with a thrown error. *)
Definition M (E A : Type) : Type := (list E * (js_error + A))%type.

Definition ret {E A} (a : A) : M E A := ([], inr a).

Definition throw {E A} (e : js_error) : M E A := ([], inl e).

Definition emit {E} (c : E) : M E unit := ([c], inr tt).

Definition bind {E A B} (m : M E A) (f : A -> M E B) : M E B :=
  match m with
  | (t, inl e) => (t, inl e)
  | (t, inr a) => let (t', r) := f a in (t ++ t', r)
  end.

(** try { m } catch (error) { h error } *)
Definition try_catch {E A} (m : M E A) (h : js_error -> M E A) : M E A :=
  match m with
  | (t, inl e) => let (t', r) := h e in (t ++ t', r)
  | (t, inr a) => (t, inr a)
  end.

(** try { m } finally { f }: [f] runs on every exit of [m]; the
    completion is that of [m] unless [f] itself throws. *)
Definition finally {E A} (m : M E A) (f : M E unit) : M E A :=
  let (t, r) := m in
  match f with
  | (t', inl e') => (t ++ t', inl e')
  | (t', inr _) => (t ++ t', r)
  end.

Definition trace {E A} (m : M E A) : list E := fst m.
Definition completion {E A} (m : M E A) : js_error + A := snd m.

End Eff.

Declare Scope eff_scope.
Delimit Scope eff_scope with eff.
Notation "x <- c1 ;; c2" := (Eff.bind c1 (fun x => c2))
  (at level 61, c1 at next level, right associativity) : eff_scope.
Notation "c1 ;; c2" := (Eff.bind c1 (fun _ => c2))
  (at level 61, right associativity) : eff_scope.

(* ================================================================== *)
(** * The review client: the Home component *)
(* ================================================================== *)

Module Home.
Import JS Eff.
Local Open Scope eff_scope.

(** The component's state: the three useState cells. *)
Record state : Type := MkState {
  code : jsstring;
  review : jsstring;
  loading : bool
}.

(** What the handlers call. *)
Inductive effect : Type :=
| PreventDefault
| Alert (msg : jsstring)
| SetCode (v : jsstring)
| SetReview (v : jsstring)
| SetLoading (v : bool)
| AxiosPost (url : jsstring) (body_code : jsstring) (withCredentials : bool)
| ToastSuccess (msg : jsstring)
| ToastError (msg : jsstring)
| ClipboardWriteText (text : jsstring).

(** The state setters act on the state; every other call leaves it. *)
Definition apply_effect (st : state) (c : effect) : state :=
  match c with
  | SetCode v => MkState v (review st) (loading st)
  | SetReview v => MkState (code st) v (loading st)
  | SetLoading v => MkState (code st) (review st) v
  | _ => st
  end.

Definition run (st : state) (t : list effect) : state :=
  fold_left apply_effect t st.

(** The states the component goes through, the first one included. *)
Fixpoint states (st : state) (t : list effect) : list state :=
  st :: match t with
        | [] => []
        | c :: t' => states (apply_effect st c) t'
        end.

(** The client's phase, read off the loading flag. *)
Inductive phase : Type := Idle | Submitting.

Definition phase_of (st : state) : phase :=
  if loading st then Submitting else Idle.

Definition phase_eqb (p q : phase) : bool :=
  match p, q with
  | Idle, Idle | Submitting, Submitting => true
  | _, _ => false
  end.

(** The phases in order, a phase that lasts several steps listed once. *)
Fixpoint transitions (ps : list phase) : list phase :=
  match ps with
  | p :: ((q :: _) as ps') =>
      if phase_eqb p q then transitions ps' else p :: transitions ps'
  | _ => ps
  end.

Definition is_post (c : effect) : bool :=
  match c with AxiosPost _ _ _ => true | _ => false end.

Definition is_clipboard_write (c : effect) : bool :=
  match c with ClipboardWriteText _ => true | _ => false end.

Definition loading_writes (t : list effect) : list bool :=
  flat_map (fun c => match c with SetLoading v => [v] | _ => [] end) t.

(** The body of the gateway's answer, as axios hands it over: a text,
    a JSON object or array (with its [message] property when it has a
    string there, and its rendering by JSON.stringify(data, null, 2)),
    or null.  A body that parses to a number or a boolean would put a
    value that is not a string into [review]; the gateway answers with
    the provider's text, and such bodies are left out. *)
Inductive response_data : Type :=
| DataString (s : jsstring)
| DataObject (message : option jsstring) (pretty : jsstring)
| DataNull.

(** How the POST settles. *)
Inductive post_outcome : Type :=
| Resolved (data : response_data)
| Rejected (error : js_error).

(** The messages, as code units. *)
Definition msg_write_some_code : jsstring :=
  js "Please write some code to review.".
Definition msg_reviewed : jsstring :=
  9989%N :: js " Code reviewed successfully!".
Definition msg_failed : jsstring :=
  10060%N :: js " Failed to review code".
Definition msg_nothing_to_copy : jsstring :=
  9888%N :: 65039%N :: js " Nothing to copy".
Definition msg_full_copied : jsstring :=
  55357%N :: 56523%N :: js " Full review copied!".
Definition msg_no_code_found : jsstring :=
  9888%N :: 65039%N :: js " No code found in review!".
Definition msg_snippets_copied : jsstring :=
  55357%N :: 56523%N :: js " Code snippets copied!".

(** await axios.post(url, { code }, { withCredentials }) *)
Definition axios_post (url body_code : jsstring) (withCredentials : bool)
    (reply : post_outcome) : M effect response_data :=
  emit (AxiosPost url body_code withCredentials) ;;
  match reply with
  | Resolved data => ret data
  | Rejected error => throw error
  end.

(** data.message: undefined on a string, a TypeError on null. *)
Definition get_message (data : response_data) : M effect (option jsstring) :=
  match data with
  | DataString _ => ret None
  | DataObject message _ => ret message
  | DataNull =>
      throw (MkError TypeError
               (js "Cannot read properties of null (reading 'message')"))
  end.

(** v || d *)
Definition or_default (v : option jsstring) (d : jsstring) : jsstring :=
  match v with
  | Some m => if falsy m then d else m
  | None => d
  end.

(** typeof data === "object" ? JSON.stringify(data, null, 2) : data *)
Definition review_text (data : response_data) : jsstring :=
  match data with
  | DataString s => s
  | DataObject _ pretty => pretty
  | DataNull => js "null"
  end.

Definition submitHandler (base_url : jsstring) (st : state)
    (reply : post_outcome) : M effect unit :=
  emit PreventDefault ;;
  if falsy (trim (code st)) then
    emit (Alert msg_write_some_code)
  else
    finally
      (try_catch
         (emit (SetLoading true) ;;
          data <- axios_post (base_url ++ js "/get-service") (code st) true
                    reply ;;
          message <- get_message data ;;
          emit (ToastSuccess (or_default message msg_reviewed)) ;;
          emit (SetReview (review_text data)) ;;
          emit (SetCode []))
         (fun error => emit (ToastError msg_failed)))
      (emit (SetLoading false)).

Definition handleCopyAll (st : state) : M effect unit :=
  if falsy (review st) then emit (ToastError msg_nothing_to_copy)
  else
    emit (ClipboardWriteText (review st)) ;;
    emit (ToastSuccess msg_full_copied).

(** /```(?:\w+)?\n([\s\S]*?)```/g *)
Definition code_fence : regex :=
  Seq (Lit bt) (Seq (Lit bt) (Seq (Lit bt)
    (Seq (OptG (PlusG is_word))
      (Seq (Lit nl)
        (Seq (Group (StarL space_or_not))
          (Seq (Lit bt) (Seq (Lit bt) (Lit bt)))))))).

(** m[1].trim(): a TypeError when the group did not take part. *)
Definition group1_trim (m : match_result) : M effect jsstring :=
  match m_group1 m with
  | Some c => ret (trim c)
  | None =>
      throw (MkError TypeError
               (js "Cannot read properties of undefined (reading 'trim')"))
  end.

(** Array.prototype.map with a callback that may throw. *)
Fixpoint array_map {A B} (f : A -> M effect B) (xs : list A)
  : M effect (list B) :=
  match xs with
  | [] => ret []
  | x :: xs' => y <- f x ;; ys <- array_map f xs' ;; ret (y :: ys)
  end.

Definition codeBlocks (review : jsstring) : M effect (list jsstring) :=
  array_map group1_trim (matchAll code_fence review).

Definition handleCopyCode (st : state) : M effect unit :=
  if falsy (review st) then emit (ToastError msg_nothing_to_copy)
  else
    codeBlocks <- codeBlocks (review st) ;;
    if (length codeBlocks =? 0)%nat then
      emit (ToastError msg_no_code_found)
    else
      let finalCode := join [nl; nl] codeBlocks in
      emit (ClipboardWriteText finalCode) ;;
      emit (ToastSuccess msg_snippets_copied).

End Home.

(* ================================================================== *)
(** * The gateway service: ai.service.js *)
(* ================================================================== *)

Module AiService.
Import JS Eff.
Local Open Scope eff_scope.

Inductive effect : Type :=
| GetGenerativeModel (model : jsstring) (systemInstruction : jsstring)
| GenerateContent (parts : list jsstring)
| ConsoleError (label : jsstring) (error : js_error).

Definition is_provider_call (c : effect) : bool :=
  match c with GenerateContent _ => true | _ => false end.

Definition is_log (c : effect) : bool :=
  match c with ConsoleError _ _ => true | _ => false end.

(** How the provider call settles: the promise rejects, or it resolves
    to a response whose text() returns the text or throws. *)
Inductive provider_outcome : Type :=
| ProviderRejects (error : js_error)
| ProviderResolves (text : js_error + jsstring).

(** await model.generateContent(parts) *)
Definition generateContent (parts : list jsstring)
    (reply : provider_outcome) : M effect (js_error + jsstring) :=
  emit (GenerateContent parts) ;;
  match reply with
  | ProviderRejects error => throw error
  | ProviderResolves response => ret response
  end.

(** response.response.text() *)
Definition response_text (response : js_error + jsstring)
  : M effect jsstring :=
  match response with
  | inl error => throw error
  | inr text => ret text
  end.

Section Main.

(** The fixed system instruction, a template literal of the source. *)
Variable systemInstruction : jsstring.

Definition main (prompt : jsstring) (reply : provider_outcome)
  : M effect jsstring :=
  try_catch
    (emit (GetGenerativeModel (js "gemini-2.5-flash") systemInstruction) ;;
     response <- generateContent [prompt] reply ;;
     response_text response)
    (fun error =>
       emit (ConsoleError (js "Error generating content:") error) ;;
       throw error).

End Main.

End AiService.

(* ================================================================== *)
(** * Fenced blocks: what the pattern recognises, said directly *)
(* ================================================================== *)

Module Fence.
Import JS.

(** The delimiter: three backticks. *)
Definition fence : jsstring := [bt; bt; bt].

(** [s] without a fence at its start. *)
Definition strip_fence (s : jsstring) : option jsstring :=
  match s with
  | c1 :: c2 :: c3 :: s' =>
      if ((c1 =? bt) && (c2 =? bt) && (c3 =? bt))%N then Some s' else None
  | _ => None
  end.

(** [s] without the word characters at its start. *)
Fixpoint skip_word (s : jsstring) : jsstring :=
  match s with
  | c :: s' => if is_word c then skip_word s' else s
  | [] => []
  end.

(** The first fence of [s]: what is before it and what is after it. *)
Fixpoint find_fence (s : jsstring) : option (jsstring * jsstring) :=
  match strip_fence s with
  | Some rest => Some ([], rest)
  | None =>
      match s with
      | c :: s' =>
          match find_fence s' with
          | Some (a, rest) => Some (c :: a, rest)
          | None => None
          end
      | [] => None
      end
  end.

(** Does a fence occur in [s]? *)
Fixpoint has_fence (s : jsstring) : bool :=
  match strip_fence s with
  | Some _ => true
  | None =>
      match s with
      | _ :: s' => has_fence s'
      | [] => false
      end
  end.

(** A block anchored at the start of [s]: a fence, the word characters
    of a language tag, a newline, and the text up to the first fence
    after it. *)
Definition scan_block (s : jsstring) : option (match_result * jsstring) :=
  match strip_fence s with
  | Some s1 =>
      match skip_word s1 with
      | c :: s3 =>
          if (c =? nl)%N then
            match find_fence s3 with
            | Some (content, rest) =>
                Some (MkMatch (firstn (length s - length rest) s)
                              (Some content), rest)
            | None => None
            end
          else None
      | [] => None
      end
  | None => None
  end.

(** A block in its text: what precedes it since the previous block, its
    language tag and its inner text. *)
Record segment : Type := MkSegment {
  gap : jsstring;
  tag : jsstring;
  content : jsstring
}.

Definition block_text (sg : segment) : jsstring :=
  fence ++ tag sg ++ nl :: content sg ++ fence.

Definition segment_match (sg : segment) : match_result :=
  MkMatch (block_text sg) (Some (content sg)).

(** The text made of the segments in order, then [tail]. *)
Fixpoint assemble (segs : list segment) (tail : jsstring) : jsstring :=
  match segs with
  | [] => tail
  | sg :: segs' => gap sg ++ block_text sg ++ assemble segs' tail
  end.

(** The tag is made of word characters and the inner text stops at the
    first fence after the opening line: no fence starts inside it. *)
Definition well_delimited (sg : segment) : Prop :=
  forallb is_word (tag sg) = true /\
  has_fence (content sg ++ [bt; bt]) = false.

(** The delimiter convention: a fence, an optional language tag, a
    newline, inner text, a fence. *)
Definition contains_fenced_block (s : jsstring) : Prop :=
  exists pre tg inner post,
    forallb is_word tg = true /\
    s = pre ++ fence ++ tg ++ nl :: inner ++ fence ++ post.

(** [t] is [s] without white space at its two ends. *)
Definition trimmed_from (s t : jsstring) : Prop :=
  exists l r,
    s = l ++ t ++ r /\
    forallb is_space l = true /\ forallb is_space r = true /\
    match t with c :: _ => is_space c = false | [] => True end /\
    match rev t with c :: _ => is_space c = false | [] => True end.

End Fence.

(* ================================================================== *)
(** * Sample texts and states *)
(* ================================================================== *)

Module Scenario.
Import JS Fence.

(** The two blocks of the copy scenario, and the text it copies. *)
Definition block_js : jsstring :=
  fence ++ js "js" ++ nl :: js "foo()" ++ nl :: fence.

Definition block_py : jsstring :=
  fence ++ js "py" ++ nl :: js "bar()" ++ nl :: fence.

Definition joined_code : jsstring := js "foo()" ++ [nl; nl] ++ js "bar()".

(** A review with the two blocks and prose around them. *)
Definition review_two_blocks : jsstring :=
  js "Corrected code:" ++ [nl] ++ block_js ++ nl :: js "and" ++ [nl]
  ++ block_py ++ nl :: js "Done.".

(** A review without any code. *)
Definition review_prose : jsstring := js "Looks good to me.".

(** A review whose only fence is never closed. *)
Definition review_unterminated : jsstring :=
  js "Try:" ++ [nl] ++ fence ++ js "js" ++ nl :: js "foo()".

(** A review with a closed block and then a fence that is never closed. *)
Definition review_then_unterminated : jsstring :=
  block_js ++ nl :: fence ++ js "py" ++ nl :: js "bar()".

Definition state_of_review (r : jsstring) : Home.state :=
  Home.MkState [] r false.

Definition state_of_code (c : jsstring) : Home.state :=
  Home.MkState c (js "an earlier review") false.

Definition base_url : jsstring := js "http://localhost:4000".

Definition user_code : jsstring := js "function add(a,b){return a+b}".

Definition network_down : Eff.js_error :=
  Eff.MkError Eff.NetworkError (js "Network Error").

End Scenario.

(* ================================================================== *)
(** * The review client: what the component renders *)
(* ================================================================== *)

Module View.
Import JS Home.

(** The right-hand panel: the rendered review, or the note shown while
    there is none. *)
Inductive panel : Type :=
| ReactMarkdown (children : jsstring)
| Placeholder (text : jsstring).

(** The parts of the returned JSX that depend on the state. *)
Record view : Type := MkView {
  editor_value : jsstring;      (* CodeMirror value={code} *)
  submit_disabled : bool;       (* button disabled={loading} *)
  submit_label : jsstring;
  review_panel : panel
}.

Definition label_reviewing : jsstring := 9203%N :: js " Reviewing...".
Definition label_review_code : jsstring :=
  55357%N :: 56589%N :: js " Review Code".
Definition msg_no_review_yet : jsstring :=
  9888%N :: 65039%N :: js " No review yet. Submit code to get AI feedback.".

Definition render (st : state) : view :=
  MkView (code st) (loading st)
    (if loading st then label_reviewing else label_review_code)
    (if negb (falsy (review st)) then ReactMarkdown (review st)
     else Placeholder msg_no_review_yet).

End View.

(* ================================================================== *)
(** * The review client: the code renderer of the markdown panel *)
(* ================================================================== *)

Module Renderer.
Import JS.

(** The pattern characters [cs], then [r]. *)
Fixpoint literal (cs : jsstring) (r : regex) : regex :=
  match cs with
  | [] => r
  | c :: cs' => Seq (Lit c) (literal cs' r)
  end.

(** /language-(\w+)/ *)
Definition language_class : regex :=
  literal (js "language-") (Group (PlusG is_word)).

(** One attempt at [r] followed by the assertion $ (no m flag), anchored
    at the start of [s]: after [r] the input has to be at its end. *)
Definition exec_at_end (r : regex) (s : jsstring)
  : option (match_result * jsstring) :=
  rmatch r s None
    (fun rest cap =>
       match rest with
       | [] => Some (MkMatch (firstn (length s - length rest) s) cap, rest)
       | _ :: _ => None
       end).

(** The first match of [r] followed by $, with what is before it. *)
Fixpoint search_end (r : regex) (s : jsstring)
  : option (jsstring * match_result * jsstring) :=
  match exec_at_end r s with
  | Some (m, rest) => Some ([], m, rest)
  | None =>
      match s with
      | c :: s' =>
          match search_end r s' with
          | Some (before, m, rest) => Some (c :: before, m, rest)
          | None => None
          end
      | [] => None
      end
  end.

(** s.replace(/r$/, replacement), for a replacement text without
    substitution patterns: the first match is replaced. *)
Definition replace_end (r : regex) (s replacement : jsstring) : jsstring :=
  match search_end r s with
  | Some (before, _, rest) => before ++ replacement ++ rest
  | None => s
  end.

(** What the renderer returns. *)
Inductive element : Type :=
| SyntaxHighlighter (language : capture) (children : jsstring)
| InlineCode (children : jsstring).

(** className || "" *)
Definition or_empty (className : option jsstring) : jsstring :=
  match className with
  | Some c => c
  | None => []
  end.

(** code({ inline, className, children }), for a text child. *)
Definition code (inline : bool) (className : option jsstring)
    (children : jsstring) : element :=
  let match_ := exec language_class (or_empty className) in
  match negb inline, match_ with
  | true, Some (m, _) =>
      SyntaxHighlighter (m_group1 m) (replace_end (Lit nl) children [])
  | _, _ => InlineCode children
  end.

End Renderer.

(* ================================================================== *)
(** * The review client over time *)
(* ================================================================== *)

Module Session.
Import JS Eff Home View.

(** onChange={(value) => setCode(value)} *)
Definition onChange (value : jsstring) : M effect unit :=
  emit (SetCode value).

(** The calls of a handler up to its POST, the POST included: what runs
    before the handler waits. *)
Fixpoint sent_part (t : list effect) : list effect :=
  match t with
  | [] => []
  | c :: t' => c :: (if is_post c then [] else sent_part t')
  end.

(** The calls after the POST: what runs when it has settled. *)
Fixpoint settled_part (t : list effect) : list effect :=
  match t with
  | [] => []
  | c :: t' => if is_post c then t' else settled_part t'
  end.

(** The component's state and, for every POST that has not settled
    yet, the calls its handler still has to make. *)
Record session : Type := MkSession {
  component : state;
  in_flight : list (list effect)
}.

(** What happens to the component: the user types, clicks the submit
    button (the POST will settle with [reply]), one of the POSTs in
    flight settles, the user clicks a copy button. *)
Inductive event : Type :=
| Change (value : jsstring)
| Click (reply : post_outcome)
| Settle (i : nat)
| CopyAll
| CopyCode.

Definition remove_nth {A} (i : nat) (l : list A) : list A :=
  firstn i l ++ skipn (S i) l.

Definition step (base_url : jsstring) (s : session) (ev : event) : session :=
  match ev with
  | Change value =>
      MkSession (run (component s) (trace (onChange value))) (in_flight s)
  | Click reply =>
      if submit_disabled (render (component s)) then s
      else
        let t := trace (submitHandler base_url (component s) reply) in
        MkSession (run (component s) (sent_part t))
          (if existsb is_post t then in_flight s ++ [settled_part t]
           else in_flight s)
  | Settle i =>
      match nth_error (in_flight s) i with
      | Some t => MkSession (run (component s) t) (remove_nth i (in_flight s))
      | None => s
      end
  | CopyAll =>
      MkSession (run (component s) (trace (handleCopyAll (component s))))
        (in_flight s)
  | CopyCode =>
      MkSession (run (component s) (trace (handleCopyCode (component s))))
        (in_flight s)
  end.

Definition replay (base_url : jsstring) (s : session) (evs : list event)
  : session :=
  fold_left (step base_url) evs s.

(** useState(""), useState(""), useState(false), and nothing in flight. *)
Definition initial : session := MkSession (MkState [] [] false) [].

(** The flag and the requests agree: loading is true exactly while a
    POST is in flight, there is at most one, and the calls it still
    has to make send nothing and end with loading false. *)
Definition consistent (s : session) : Prop :=
  match in_flight s with
  | [] => loading (component s) = false
  | [t] =>
      loading (component s) = true /\
      existsb is_post t = false /\
      forall st, loading (run st t) = false
  | _ :: _ :: _ => False
  end.

End Session.

(* ================================================================== *)
(** * The chat component of the corrected snippet: AiCenter *)
(* ================================================================== *)

Module AiCenter.
Import JS Eff.
Local Open Scope eff_scope.

Inductive sender : Type := User | Ai.

(** { sender, text } *)
Record chat_message : Type := MkMessage {
  msg_sender : sender;
  msg_text : jsstring
}.

(** The three useState cells. *)
Record state : Type := MkState {
  loader : bool;
  message : jsstring;
  chat : list chat_message
}.

Inductive effect : Type :=
| SetLoader (v : bool)
| SetMessage (v : jsstring)
| SetChat (v : list chat_message)
| ConsoleLog (text : jsstring)
| ConsoleError (label : jsstring) (error : js_error)
| AxiosPost (url : jsstring) (model : jsstring) (text : jsstring).

Definition apply_effect (st : state) (c : effect) : state :=
  match c with
  | SetLoader v => MkState v (message st) (chat st)
  | SetMessage v => MkState (loader st) v (chat st)
  | SetChat v => MkState (loader st) (message st) v
  | _ => st
  end.

Definition run (st : state) (t : list effect) : state :=
  fold_left apply_effect t st.

Definition is_post (c : effect) : bool :=
  match c with AxiosPost _ _ _ => true | _ => false end.

(** How the POST settles: it rejects, or it resolves to a response in
    which response.data?.candidates?.[0]?.content?.parts?.[0]?.text is
    a text or is undefined. *)
Inductive post_outcome : Type :=
| Resolved (text : option jsstring)
| Rejected (error : js_error).

Definition endpoint : jsstring :=
  js "https://generativelanguage.googleapis.com/v1beta/models/gemini-1.0-pro-flash:generateContent?key=".

Definition model_name : jsstring := js "gemini-1.0-pro-flash".

Definition msg_no_response : jsstring := js "No response from AI.".

Definition msg_went_wrong : jsstring :=
  9888%N :: 65039%N :: js " Something went wrong. Please try again.".

(** await axios.post(url, { model, contents: [{ parts: [{ text }] }] }) *)
Definition axios_post (url model text : jsstring) (reply : post_outcome)
  : M effect (option jsstring) :=
  emit (AxiosPost url model text) ;;
  match reply with
  | Resolved t => ret t
  | Rejected error => throw error
  end.

(** v || d *)
Definition or_default (v : option jsstring) (d : jsstring) : jsstring :=
  match v with
  | Some t => if falsy t then d else t
  | None => d
  end.

Definition sendMessage (api_key : jsstring) (st : state)
    (reply : post_outcome) : M effect unit :=
  if falsy (trim (message st)) then ret tt
  else
    let userMessage := MkMessage User (message st) in
    let updatedChatHistory := chat st ++ [userMessage] in
    emit (SetChat updatedChatHistory) ;;
    emit (SetMessage []) ;;
    emit (SetLoader true) ;;
    finally
      (try_catch
         (emit (ConsoleLog (js "Attempting to send message to AI...")) ;;
          text <- axios_post (endpoint ++ api_key) model_name (message st)
                    reply ;;
          let aiResponseText := or_default text msg_no_response in
          emit (SetChat (updatedChatHistory ++ [MkMessage Ai aiResponseText])))
         (fun error =>
            emit (ConsoleError (js "Error communicating with AI:") error) ;;
            emit (SetChat (updatedChatHistory ++ [MkMessage Ai msg_went_wrong]))))
      (emit (SetLoader false)).

End AiCenter.

(* ================================================================== *)
(** * The extraction as the specification words it *)
(* ================================================================== *)

Module AsSpecified.
Import JS Eff Fence.





End AsSpecified.

(* ================================================================== *)
(** * Facts about the runtime model *)
(* ================================================================== *)

Import JS Eff Fence.

(** Bring both sides of an equation between concatenations to the
    right-nested form. *)
Ltac flatten_app :=
  rewrite <- ?app_assoc, <- ?app_comm_cons, <- ?app_assoc.

Section Lists.

Context {A : Type}.

Lemma firstn_before (a b : list A) :
  firstn (length (a ++ b) - length b) (a ++ b) = a.
Proof.
  rewrite length_app.
  replace (length a + length b - length b) with (length a + 0) by lia.
  now rewrite firstn_app_2, firstn_O, app_nil_r.
Qed.

Lemma forallb_rev (p : A -> bool) (l : list A) :
  forallb p l = true -> forallb p (rev l) = true.
Proof.
  rewrite !forallb_forall. intros H x Hx. apply H. now apply in_rev.
Qed.

End Lists.

Section Completions.

Context {E A : Type}.

(** The call of a finally clause comes last, whatever the completion
    of what it guards, and leaves that completion as it is. *)
Lemma finally_emit (m : M E A) (c : E) :
  finally m (emit c) = (trace m ++ [c], completion m).
Proof. now destruct m as [t r]. Qed.

(** What a catch clause catches does not leave the try statement. *)
Lemma try_catch_emit (m : M E unit) (c : E) :
  completion (try_catch m (fun _ => emit c)) = inr tt.
Proof. now destruct m as [t [e|[]]]. Qed.

End Completions.

Section CharacterClasses.

Lemma space_or_not_true (c : code_unit) : space_or_not c = true.
Proof. unfold space_or_not. now destruct (is_space c). Qed.

Lemma is_word_not_nl (c : code_unit) :
  is_word c = true -> (c =? nl)%N = false.
Proof.
  unfold is_word, nl. intros H.
  apply N.eqb_neq. intros ->. discriminate H.
Qed.

Lemma bt_not_word : is_word bt = false.
Proof. reflexivity. Qed.

Lemma bt_not_nl : (bt =? nl)%N = false.
Proof. reflexivity. Qed.

End CharacterClasses.

Section FenceFacts.

Arguments strip_fence : simpl never.

Lemma strip_fence_Some (s r : jsstring) :
  strip_fence s = Some r <-> s = fence ++ r.
Proof.
  unfold strip_fence, fence. split.
  - destruct s as [|c1 [|c2 [|c3 s']]]; try discriminate.
    destruct (N.eqb_spec c1 bt), (N.eqb_spec c2 bt), (N.eqb_spec c3 bt);
      simpl; try discriminate.
    intros [= <-]. now subst.
  - intros ->. reflexivity.
Qed.

Lemma strip_fence_app (r : jsstring) : strip_fence (fence ++ r) = Some r.
Proof. reflexivity. Qed.

Lemma strip_fence_prefix (s t x : jsstring) :
  strip_fence s = Some x -> strip_fence (s ++ t) = Some (x ++ t).
Proof.
  intros H. apply strip_fence_Some in H as ->. reflexivity.
Qed.

Lemma skip_word_split (s : jsstring) :
  exists tg, s = tg ++ skip_word s /\ forallb is_word tg = true.
Proof.
  induction s as [|c s [tg [E W]]]; simpl.
  - now exists [].
  - destruct (is_word c) eqn:Hc.
    + exists (c :: tg). simpl. rewrite Hc, W. now rewrite <- E.
    + now exists [].
Qed.

Lemma skip_word_tag (tg s : jsstring) :
  forallb is_word tg = true -> skip_word (tg ++ nl :: s) = nl :: s.
Proof.
  induction tg as [|c tg IH]; simpl; intros H.
  - reflexivity.
  - apply andb_prop in H as [Hc H]. rewrite Hc. auto.
Qed.

Lemma find_fence_split (s a r : jsstring) :
  find_fence s = Some (a, r) ->
  s = a ++ fence ++ r /\ has_fence (a ++ [bt; bt]) = false.
Proof.
  revert a r. induction s as [|c s IH]; intros a r; cbn [find_fence].
  - discriminate.
  - destruct (strip_fence (c :: s)) as [r0|] eqn:E.
    + intros [= <- <-]. apply strip_fence_Some in E. now split.
    + destruct (find_fence s) as [[a0 r0]|]; try discriminate.
      intros [= <- <-]. destruct (IH _ _ eq_refl) as [-> Hn].
      split; [reflexivity|].
      change ((c :: a0) ++ [bt; bt]) with (c :: (a0 ++ [bt; bt])).
      cbn [has_fence]. rewrite Hn.
      destruct (strip_fence (c :: a0 ++ [bt; bt])) as [x|] eqn:E';
        [|reflexivity].
      exfalso.
      apply (strip_fence_prefix _ (bt :: r0)) in E'.
      replace ((c :: a0 ++ [bt; bt]) ++ bt :: r0)
        with (c :: a0 ++ fence ++ r0) in E'
        by (simpl; now rewrite <- app_assoc).
      congruence.
Qed.

Lemma has_fence_true (s : jsstring) :
  has_fence s = true <-> exists a b, s = a ++ fence ++ b.
Proof.
  split.
  - induction s as [|c s IH]; cbn [has_fence].
    + discriminate.
    + destruct (strip_fence (c :: s)) as [r|] eqn:E.
      * intros _. apply strip_fence_Some in E. now exists [], r.
      * intros H. destruct (IH H) as (a & b & ->). now exists (c :: a), b.
  - intros (a & b & ->). induction a as [|c a IH].
    + reflexivity.
    + change ((c :: a) ++ fence ++ b) with (c :: (a ++ fence ++ b)).
      cbn [has_fence]. rewrite IH.
      now destruct (strip_fence (c :: a ++ fence ++ b)).
Qed.

Lemma has_fence_app_false (a b : jsstring) :
  has_fence (a ++ b) = false ->
  has_fence a = false /\ has_fence b = false.
Proof.
  intros H. split.
  - destruct (has_fence a) eqn:E; [|reflexivity].
    apply has_fence_true in E as (x & y & ->).
    rewrite <- H. symmetry. apply has_fence_true.
    exists x, (y ++ b). now rewrite <- !app_assoc.
  - destruct (has_fence b) eqn:E; [|reflexivity].
    apply has_fence_true in E as (x & y & ->).
    rewrite <- H. symmetry. apply has_fence_true.
    exists (a ++ x), y. now rewrite <- app_assoc.
Qed.

Lemma find_fence_None (s : jsstring) :
  find_fence s = None <-> has_fence s = false.
Proof.
  induction s as [|c s IH]; cbn [find_fence has_fence].
  - tauto.
  - destruct (strip_fence (c :: s)).
    + split; discriminate.
    + rewrite <- IH. destruct (find_fence s) as [[a r]|].
      * split; discriminate.
      * tauto.
Qed.

Lemma find_fence_first (a r : jsstring) :
  has_fence (a ++ [bt; bt]) = false ->
  find_fence (a ++ fence ++ r) = Some (a, r).
Proof.
  induction a as [|c a IH]; intros H.
  - reflexivity.
  - change ((c :: a) ++ [bt; bt]) with (c :: (a ++ [bt; bt])) in H.
    cbn [has_fence] in H.
    destruct (strip_fence (c :: a ++ [bt; bt])) as [x|] eqn:E;
      [discriminate|].
    change ((c :: a) ++ fence ++ r) with (c :: (a ++ fence ++ r)).
    cbn [find_fence]. rewrite (IH H).
    destruct (strip_fence (c :: a ++ fence ++ r)) as [y|] eqn:E';
      [|reflexivity].
    exfalso.
    assert (strip_fence (c :: a ++ [bt; bt]) <> None) as N; [|contradiction].
    clear - E'. unfold strip_fence in *.
    destruct a as [|d [|e a]]; simpl in *;
      repeat match goal with H : context [(?c =? bt)%N] |- _ =>
               destruct (c =? bt)%N; simpl in * end;
      congruence.
Qed.

End FenceFacts.

Section Matcher.

Context {R : Type}.

Lemma plus_greedy_skip (k : jsstring -> option R) :
  (forall c t, is_word c = true -> k (c :: t) = None) ->
  forall s,
    match plus_greedy is_word s k with
    | Some x => Some x
    | None => k s
    end = k (skip_word s).
Proof.
  intros Hk. induction s as [|c s IH]; simpl.
  - reflexivity.
  - destruct (is_word c) eqn:Hc; [|reflexivity].
    rewrite IH. destruct (k (skip_word s)); [reflexivity|]. now apply Hk.
Qed.

Lemma star_lazy_first_fence
    (k : jsstring -> option R) (h : jsstring -> jsstring -> R) :
  (forall t, k t = match strip_fence t with
                   | Some r => Some (h t r)
                   | None => None
                   end) ->
  forall s,
    star_lazy space_or_not s k =
    match find_fence s with
    | Some (_, r) => Some (h (fence ++ r) r)
    | None => None
    end.
Proof.
  intros Hk. induction s as [|c s IH]; cbn [star_lazy find_fence];
    rewrite Hk.
  - reflexivity.
  - destruct (strip_fence (c :: s)) as [r|] eqn:E.
    + apply strip_fence_Some in E. now rewrite E.
    + rewrite space_or_not_true, IH.
      now destruct (find_fence s) as [[a r]|].
Qed.

Lemma rmatch_fence (s : jsstring) (cap : capture)
    (k : jsstring -> capture -> option R) :
  rmatch (Seq (Lit bt) (Seq (Lit bt) (Lit bt))) s cap k =
  match strip_fence s with
  | Some r => k r cap
  | None => None
  end.
Proof.
  unfold strip_fence.
  destruct s as [|c1 [|c2 [|c3 s]]]; simpl;
    repeat match goal with |- context [(?c =? bt)%N] =>
             destruct (c =? bt)%N; simpl end; reflexivity.
Qed.

Lemma rmatch_seq (r1 r2 : regex) (s : jsstring) (cap : capture)
    (k : jsstring -> capture -> option R) :
  rmatch (Seq r1 r2) s cap k =
  rmatch r1 s cap (fun s' cap' => rmatch r2 s' cap' k).
Proof. reflexivity. Qed.

Lemma rmatch_lit (c : code_unit) (s : jsstring) (cap : capture)
    (k : jsstring -> capture -> option R) :
  rmatch (Lit c) s cap k =
  match s with
  | c' :: s' => if (c' =? c)%N then k s' cap else None
  | [] => None
  end.
Proof. reflexivity. Qed.

Lemma rmatch_fence_then (r : regex) (s : jsstring) (cap : capture)
    (k : jsstring -> capture -> option R) :
  rmatch (Seq (Lit bt) (Seq (Lit bt) (Seq (Lit bt) r))) s cap k =
  match strip_fence s with
  | Some s1 => rmatch r s1 cap k
  | None => None
  end.
Proof.
  unfold strip_fence.
  destruct s as [|c1 [|c2 [|c3 s]]]; cbn [rmatch];
    repeat match goal with |- context [(?c =? bt)%N] =>
             destruct (c =? bt)%N; cbn [andb] end;
    reflexivity.
Qed.

Lemma rmatch_optional_tag (s : jsstring) (cap : capture)
    (k : jsstring -> capture -> option R) :
  (forall c t, is_word c = true -> k (c :: t) cap = None) ->
  rmatch (OptG (PlusG is_word)) s cap k = k (skip_word s) cap.
Proof.
  intros Hk. cbn [rmatch].
  apply (plus_greedy_skip (fun s' => k s' cap) Hk).
Qed.

(** The lazy group followed by the closing fence, when nothing after
    the fence can fail: the inner text runs to the first fence. *)
Lemma rmatch_inner (s : jsstring) (cap : capture)
    (g : jsstring -> capture -> R) :
  rmatch (Seq (Group (StarL space_or_not))
              (Seq (Lit bt) (Seq (Lit bt) (Lit bt)))) s cap
         (fun r c => Some (g r c)) =
  match find_fence s with
  | Some (a, r) => Some (g r (Some a))
  | None => None
  end.
Proof.
  cbn [rmatch].
  rewrite (star_lazy_first_fence _
             (fun t r => g r (Some (firstn (length s - length t) s)))).
  - destruct (find_fence s) as [[a r]|] eqn:E; [|reflexivity].
    apply find_fence_split in E as [-> _].
    now rewrite (firstn_before a (fence ++ r)).
  - intros t.
    apply (rmatch_fence t _ (fun r c => Some (g r c))).
Qed.

End Matcher.

Section Exec.

(** The matcher, run on the pattern of handleCopyCode, recognises
    exactly the blocks of [scan_block]. *)
Lemma exec_at_code_fence (s : jsstring) :
  exec_at Home.code_fence s = scan_block s.
Proof.
  unfold exec_at, scan_block, Home.code_fence.
  rewrite rmatch_fence_then.
  destruct (strip_fence s) as [s1|]; [|reflexivity].
  rewrite rmatch_seq, rmatch_optional_tag.
  - destruct (skip_word s1) as [|c s3]; rewrite rmatch_seq, rmatch_lit;
      [reflexivity|].
    destruct (c =? nl)%N; [|reflexivity].
    rewrite (rmatch_inner s3 None
               (fun rest cap =>
                  (MkMatch (firstn (length s - length rest) s) cap, rest))).
    now destruct (find_fence s3) as [[a r]|].
  - intros c t Hc. rewrite rmatch_seq, rmatch_lit.
    now rewrite (is_word_not_nl _ Hc).
Qed.

End Exec.

Section Search.

Lemma scan_block_Some (s : jsstring) (m : match_result) (rest : jsstring) :
  scan_block s = Some (m, rest) ->
  exists tg inner,
    s = fence ++ tg ++ nl :: inner ++ fence ++ rest /\
    m = MkMatch (fence ++ tg ++ nl :: inner ++ fence) (Some inner) /\
    forallb is_word tg = true /\
    has_fence (inner ++ [bt; bt]) = false.
Proof.
  unfold scan_block.
  destruct (strip_fence s) as [s1|] eqn:E1; [|discriminate].
  apply strip_fence_Some in E1.
  destruct (skip_word_split s1) as (tg & E2 & W).
  destruct (skip_word s1) as [|c s3]; [discriminate|].
  destruct (N.eqb_spec c nl) as [->|]; [|discriminate].
  destruct (find_fence s3) as [[inner r]|] eqn:E3; [|discriminate].
  apply find_fence_split in E3 as [E3 L].
  intros [= <- <-]. exists tg, inner.
  assert (s = (fence ++ tg ++ nl :: inner ++ fence) ++ r) as E.
  { subst s s1 s3. now flatten_app. }
  repeat split; try assumption.
  - rewrite E. now flatten_app.
  - f_equal. rewrite E. apply firstn_before.
Qed.

Lemma scan_block_found (tg inner rest : jsstring) :
  forallb is_word tg = true ->
  has_fence (inner ++ [bt; bt]) = false ->
  scan_block (fence ++ tg ++ nl :: inner ++ fence ++ rest) =
  Some (MkMatch (fence ++ tg ++ nl :: inner ++ fence) (Some inner), rest).
Proof.
  intros W L. unfold scan_block.
  rewrite strip_fence_app, (skip_word_tag _ _ W), N.eqb_refl,
    (find_fence_first _ _ L).
  do 2 f_equal.
  replace (fence ++ tg ++ nl :: inner ++ fence ++ rest)
    with ((fence ++ tg ++ nl :: inner ++ fence) ++ rest)
    by now flatten_app.
  now rewrite firstn_before.
Qed.

(** A block needs a fence, and a second one after its opening line. *)
Lemma scan_block_no_fence (s : jsstring) :
  has_fence s = false -> scan_block s = None.
Proof.
  intros H. unfold scan_block.
  destruct (strip_fence s) as [s1|] eqn:E; [|reflexivity].
  apply strip_fence_Some in E. subst s.
  exfalso. enough (has_fence (fence ++ s1) = true) by congruence.
  apply has_fence_true. now exists [], s1.
Qed.

Lemma exec_unfold (s : jsstring) :
  exec Home.code_fence s =
  match scan_block s with
  | Some res => Some res
  | None =>
      match s with
      | _ :: s' => exec Home.code_fence s'
      | [] => None
      end
  end.
Proof. destruct s; cbn [exec]; now rewrite exec_at_code_fence. Qed.

Lemma exec_Some (s : jsstring) (m : match_result) (rest : jsstring) :
  exec Home.code_fence s = Some (m, rest) ->
  exists sg,
    s = gap sg ++ block_text sg ++ rest /\
    m = segment_match sg /\ well_delimited sg.
Proof.
  induction s as [|c s IH]; rewrite exec_unfold.
  - destruct (scan_block []) as [res|] eqn:E; [|discriminate].
    discriminate E.
  - destruct (scan_block (c :: s)) as [res|] eqn:E.
    + intros [= ->].
      apply scan_block_Some in E as (tg & inner & E & -> & W & L).
      exists (MkSegment [] tg inner). unfold block_text, segment_match.
      cbn [gap tag content]. rewrite E.
      repeat split; try assumption.
      now flatten_app.
    + intros H. destruct (IH H) as (sg & E' & -> & WD).
      exists (MkSegment (c :: gap sg) (tag sg) (content sg)).
      unfold block_text, segment_match, well_delimited in *.
      cbn [gap tag content]. rewrite E' at 1. now repeat split.
Qed.

Lemma exec_no_fence (s : jsstring) :
  has_fence s = false -> exec Home.code_fence s = None.
Proof.
  induction s as [|c s IH]; intros H; rewrite exec_unfold,
    (scan_block_no_fence _ H).
  - reflexivity.
  - apply IH. now apply (has_fence_app_false [c] s).
Qed.

(** No block starts in a fence-free prefix, not even on backticks that
    run into the fence after it. *)
Lemma exec_skip_prefix (pre rest : jsstring) :
  has_fence pre = false ->
  exec Home.code_fence (pre ++ fence ++ rest) =
  exec Home.code_fence (fence ++ rest).
Proof.
  induction pre as [|c pre IH]; intros H; [reflexivity|].
  change ((c :: pre) ++ fence ++ rest) with (c :: (pre ++ fence ++ rest)).
  rewrite exec_unfold.
  assert (has_fence pre = false) as Hp
    by now apply (has_fence_app_false [c] pre).
  replace (scan_block (c :: pre ++ fence ++ rest)) with
    (@None (match_result * jsstring)); [now apply IH|].
  symmetry. unfold scan_block.
  destruct (strip_fence (c :: pre ++ fence ++ rest)) as [s1|] eqn:E;
    [|reflexivity].
  destruct pre as [|d [|e pre]].
  - apply strip_fence_Some in E. injection E as -> <-. reflexivity.
  - apply strip_fence_Some in E. injection E as -> -> <-. reflexivity.
  - exfalso. enough (has_fence (c :: d :: e :: pre) = true) by congruence.
    apply strip_fence_Some in E. injection E as -> -> -> _.
    apply has_fence_true. now exists [], pre.
Qed.

Lemma block_text_length (sg : segment) : 7 <= length (block_text sg).
Proof.
  unfold block_text, fence. rewrite !length_app. simpl.
  rewrite length_app. simpl. lia.
Qed.

Lemma matchAll_from_enough (f1 : nat) :
  forall f2 s, length s < f1 -> length s < f2 ->
  matchAll_from f1 Home.code_fence s = matchAll_from f2 Home.code_fence s.
Proof.
  induction f1 as [|f1 IH]; intros f2 s H1 H2; [lia|].
  destruct f2 as [|f2]; [lia|]. cbn [matchAll_from].
  destruct (exec Home.code_fence s) as [[m rest]|] eqn:E; [|reflexivity].
  apply exec_Some in E as (sg & E & -> & _).
  pose proof (block_text_length sg) as L.
  cbn [segment_match m_whole].
  destruct (block_text sg) as [|b bs] eqn:Eb; [simpl in L; lia|].
  f_equal. apply (f_equal (@length _)) in E.
  rewrite !length_app in E. apply IH; lia.
Qed.

(** One round of the iteration. *)
Lemma matchAll_step (s : jsstring) :
  matchAll Home.code_fence s =
  match exec Home.code_fence s with
  | Some (m, rest) => m :: matchAll Home.code_fence rest
  | None => []
  end.
Proof.
  unfold matchAll at 1. cbn [matchAll_from].
  destruct (exec Home.code_fence s) as [[m rest]|] eqn:E; [|reflexivity].
  apply exec_Some in E as (sg & E & -> & _).
  pose proof (block_text_length sg) as L.
  cbn [segment_match m_whole].
  destruct (block_text sg) as [|b bs] eqn:Eb; [simpl in L; lia|].
  f_equal. apply (f_equal (@length _)) in E.
  rewrite !length_app in E. apply matchAll_from_enough; lia.
Qed.

(** More rounds than [length s + 1] find nothing more. *)
Lemma matchAll_fuel (fuel : nat) (s : jsstring) :
  length s < fuel ->
  matchAll_from fuel Home.code_fence s = matchAll Home.code_fence s.
Proof. intros H. apply matchAll_from_enough; [assumption|lia]. Qed.

Lemma exec_rest_shorter (s : jsstring) (m : match_result) (rest : jsstring) :
  exec Home.code_fence s = Some (m, rest) -> length rest < length s.
Proof.
  intros E. apply exec_Some in E as (sg & E & _).
  pose proof (block_text_length sg).
  apply (f_equal (@length _)) in E. rewrite !length_app in E. lia.
Qed.

(** The text is its blocks, in order, with what lies between them: the
    matches are the blocks of the segments, one for one. *)
Lemma matchAll_segments (s : jsstring) :
  exists segs tail,
    s = assemble segs tail /\
    matchAll Home.code_fence s = map segment_match segs /\
    Forall well_delimited segs /\
    exec Home.code_fence tail = None.
Proof.
  remember (length s) as n eqn:Hn. revert s Hn.
  induction n as [n IH] using lt_wf_ind. intros s ->.
  rewrite matchAll_step.
  destruct (exec Home.code_fence s) as [[m rest]|] eqn:E.
  - pose proof (exec_rest_shorter _ E) as Hl.
    apply exec_Some in E as (sg & E & -> & WD).
    destruct (IH _ Hl rest eq_refl) as (segs & tail & E' & -> & F & T).
    exists (sg :: segs), tail. cbn [assemble map].
    repeat split; try assumption.
    + now rewrite <- E'.
    + now constructor.
  - exists [], s. now repeat split.
Qed.

End Search.

Section Trim.

Lemma trimStart_split (s : jsstring) :
  exists l,
    s = l ++ trimStart s /\ forallb is_space l = true /\
    match trimStart s with c :: _ => is_space c = false | [] => True end.
Proof.
  induction s as [|c s (l & E & Hl & Hh)]; cbn [trimStart].
  - now exists [].
  - destruct (is_space c) eqn:Hc.
    + exists (c :: l). cbn. rewrite Hc, Hl. now rewrite <- E.
    + now exists [].
Qed.

Lemma trimEnd_split (s : jsstring) :
  exists r,
    s = trimEnd s ++ r /\ forallb is_space r = true /\
    match rev (trimEnd s) with c :: _ => is_space c = false | [] => True end.
Proof.
  unfold trimEnd. destruct (trimStart_split (rev s)) as (l & E & Hl & Hh).
  exists (rev l). rewrite rev_involutive. repeat split.
  - rewrite <- rev_app_distr, <- E. now rewrite rev_involutive.
  - now apply forallb_rev.
  - assumption.
Qed.

(** trim returns the text between the white space at the two ends,
    as it is. *)
Lemma trim_trimmed_from (s : jsstring) : trimmed_from s (trim s).
Proof.
  unfold trim.
  destruct (trimStart_split s) as (l & E1 & Hl & Hh).
  destruct (trimEnd_split (trimStart s)) as (r & E2 & Hr & Ht).
  exists l, r. repeat split; try assumption.
  - now rewrite <- E2.
  - destruct (trimEnd (trimStart s)) as [|c t] eqn:E; [exact I|].
    rewrite E2 in Hh. exact Hh.
Qed.

End Trim.

Section Blocks.

Lemma has_fence_cons_other (c : code_unit) (s : jsstring) :
  (c =? bt)%N = false -> has_fence (c :: s) = has_fence s.
Proof.
  intros H. cbn [has_fence]. unfold strip_fence.
  destruct s as [|d [|e s]]; try reflexivity. now rewrite H.
Qed.






Lemma codeBlocks_segments (s : jsstring) (segs : list segment) :
  matchAll Home.code_fence s = map segment_match segs ->
  Home.codeBlocks s = ret (map (fun sg => trim (content sg)) segs).
Proof.
  unfold Home.codeBlocks. intros ->.
  induction segs as [|sg segs IH]; [reflexivity|].
  cbn [map Home.array_map]. rewrite IH. reflexivity.
Qed.

Lemma matchAll_block (pre tg inner rest : jsstring) :
  has_fence pre = false ->
  forallb is_word tg = true ->
  has_fence (inner ++ [bt; bt]) = false ->
  matchAll Home.code_fence (pre ++ fence ++ tg ++ nl :: inner ++ fence ++ rest)
  = MkMatch (fence ++ tg ++ nl :: inner ++ fence) (Some inner)
    :: matchAll Home.code_fence rest.
Proof.
  intros Hp W L.
  rewrite matchAll_step, (exec_skip_prefix _ _ Hp), exec_unfold,
    (scan_block_found _ _ _ W L).
  reflexivity.
Qed.

(** A block of the text is found: the search stops on it, or on an
    earlier one. *)
Lemma fenced_block_is_found (s : jsstring) :
  contains_fenced_block s -> matchAll Home.code_fence s <> [].
Proof.
  intros (pre & tg & inner & post & W & ->).
  rewrite matchAll_step.
  enough (exec Home.code_fence
            (pre ++ fence ++ tg ++ nl :: inner ++ fence ++ post) <> None) as H.
  { destruct (exec Home.code_fence
                (pre ++ fence ++ tg ++ nl :: inner ++ fence ++ post))
      as [[m r]|]; [discriminate|contradiction]. }
  induction pre as [|c pre IH].
  - rewrite exec_unfold. cbn [app]. unfold scan_block.
    rewrite strip_fence_app, (skip_word_tag _ _ W), N.eqb_refl.
    destruct (find_fence (inner ++ fence ++ post)) as [[a r]|] eqn:E.
    + discriminate.
    + exfalso. apply find_fence_None in E.
      enough (has_fence (inner ++ fence ++ post) = true) by congruence.
      apply has_fence_true. now exists inner, post.
  - change ((c :: pre) ++ fence ++ tg ++ nl :: inner ++ fence ++ post)
      with (c :: (pre ++ fence ++ tg ++ nl :: inner ++ fence ++ post)).
    rewrite exec_unfold.
    now destruct (scan_block
                    (c :: pre ++ fence ++ tg ++ nl :: inner ++ fence ++ post)).
Qed.

Lemma matchAll_no_fence (s : jsstring) :
  has_fence s = false -> matchAll Home.code_fence s = [].
Proof. intros H. now rewrite matchAll_step, (exec_no_fence _ H). Qed.


End Blocks.

Section Unterminated.

Lemma line_ends_with_tick (A inner X : jsstring) :
  A ++ nl :: inner = X ++ [bt] ->
  has_fence (inner ++ [bt; bt]) = true.
Proof.
  intros E. destruct inner as [|e i' _] using rev_ind.
  - apply app_inj_tail in E as [_ E]. discriminate E.
  - rewrite app_comm_cons, app_assoc in E.
    apply app_inj_tail in E as [_ ->].
    apply has_fence_true. exists i', []. now rewrite <- app_assoc.
Qed.

(** After an opening fence that no fence follows, a block cannot close
    any later than on that fence. *)
Lemma closing_fence_not_after (pre rest0 A inner r : jsstring) :
  has_fence rest0 = false ->
  has_fence (inner ++ [bt; bt]) = false ->
  pre ++ fence ++ rest0 = A ++ nl :: inner ++ fence ++ r ->
  exists x, r = x ++ rest0.
Proof.
  intros H0 L E.
  replace (pre ++ fence ++ rest0) with ((pre ++ fence) ++ rest0) in E
    by now rewrite <- app_assoc.
  replace (A ++ nl :: inner ++ fence ++ r)
    with (((A ++ nl :: inner) ++ fence) ++ r) in E
    by now rewrite <- !app_assoc.
  apply app_eq_app in E as [l [[E1 E2]|[E1 E2]]].
  - now exists l.
  - destruct l as [|d1 l1 _] using rev_ind.
    { exists []. now rewrite E2. }
    exfalso. unfold fence in E1.
    replace ((A ++ nl :: inner) ++ [bt; bt; bt])
      with (((A ++ nl :: inner) ++ [bt; bt]) ++ [bt]) in E1
      by now rewrite <- !app_assoc.
    rewrite app_assoc in E1. apply app_inj_tail in E1 as [E1 <-].
    destruct l1 as [|d2 l2 _] using rev_ind.
    { rewrite app_nil_r in E1.
      replace ((A ++ nl :: inner) ++ [bt; bt])
        with (((A ++ nl :: inner) ++ [bt]) ++ [bt]) in E1
        by now rewrite <- !app_assoc.
      replace (pre ++ [bt; bt; bt]) with ((pre ++ [bt; bt]) ++ [bt]) in E1
        by now rewrite <- !app_assoc.
      apply app_inj_tail in E1 as [E1 _].
      replace (pre ++ [bt; bt]) with ((pre ++ [bt]) ++ [bt]) in E1
        by now rewrite <- !app_assoc.
      apply app_inj_tail in E1 as [E1 _].
      apply line_ends_with_tick in E1. congruence. }
    replace ((A ++ nl :: inner) ++ [bt; bt])
      with (((A ++ nl :: inner) ++ [bt]) ++ [bt]) in E1
      by now rewrite <- !app_assoc.
    rewrite app_assoc in E1. apply app_inj_tail in E1 as [E1 <-].
    destruct l2 as [|d3 l3 _] using rev_ind.
    { rewrite app_nil_r in E1.
      replace (pre ++ [bt; bt; bt]) with ((pre ++ [bt; bt]) ++ [bt]) in E1
        by now rewrite <- !app_assoc.
      apply app_inj_tail in E1 as [E1 _].
      replace (pre ++ [bt; bt]) with ((pre ++ [bt]) ++ [bt]) in E1
        by now rewrite <- !app_assoc.
      apply line_ends_with_tick in E1. congruence. }
    rewrite app_assoc in E1. apply app_inj_tail in E1 as [_ <-].
    enough (has_fence rest0 = true) by congruence.
    apply has_fence_true. exists l3, r. rewrite E2.
    now rewrite <- !app_assoc.
Qed.

Lemma assemble_app (segs : list segment) (x y : jsstring) :
  assemble segs (x ++ y) = assemble segs x ++ y.
Proof.
  induction segs as [|sg segs IH]; cbn [assemble]; [reflexivity|].
  now rewrite IH, <- !app_assoc.
Qed.

(** What follows the last fence that no fence follows stays outside
    every block. *)
Lemma matchAll_keeps_out (rest0 : jsstring) (n : nat) :
  forall t, length t = n ->
  (exists x, t = x ++ rest0) ->
  (forall A inner r,
     has_fence (inner ++ [bt; bt]) = false ->
     t = A ++ nl :: inner ++ fence ++ r -> exists x, r = x ++ rest0) ->
  exists segs x,
    t = assemble segs (x ++ rest0) /\
    matchAll Home.code_fence t = map segment_match segs /\
    Forall well_delimited segs.
Proof.
  induction n as [n IH] using lt_wf_ind. intros t Hn [x0 Hx] Hk.
  rewrite matchAll_step.
  destruct (exec Home.code_fence t) as [[m r]|] eqn:E.
  - pose proof (exec_rest_shorter _ E) as Hl.
    apply exec_Some in E as (sg & E & -> & WD).
    assert (t = (gap sg ++ fence ++ tag sg) ++ nl :: content sg ++ fence ++ r)
      as Et.
    { rewrite E at 1. unfold block_text.
      now flatten_app. }
    destruct (Hk _ _ _ (proj2 WD) Et) as [x Hr].
    destruct (IH (length r) ltac:(lia) r eq_refl) as (segs & y & E' & -> & F).
    + now exists x.
    + intros A inner r' L' Er. apply (Hk (gap sg ++ block_text sg ++ A) inner r' L').
      rewrite E at 1. rewrite Er. now rewrite <- !app_assoc.
    + exists (sg :: segs), y. cbn [assemble map].
      repeat split; [|now constructor].
      now rewrite <- E'.
  - exists [], x0. now repeat split.
Qed.

End Unterminated.

Section CopyHandlers.
Import Home.

Lemma falsy_false (s : jsstring) : s <> [] -> falsy s = false.
Proof. now destruct s. Qed.

Lemma falsy_true (s : jsstring) : s = [] -> falsy s = true.
Proof. now intros ->. Qed.

(** handleCopyCode on a text whose matches are known. *)
Lemma handleCopyCode_segments (st : state) (segs : list segment) :
  review st <> [] ->
  matchAll code_fence (review st) = map segment_match segs ->
  handleCopyCode st =
  match segs with
  | [] => ([ToastError msg_no_code_found], inr tt)
  | _ :: _ =>
      ([ClipboardWriteText
          (join [nl; nl] (map (fun sg => trim (content sg)) segs));
        ToastSuccess msg_snippets_copied], inr tt)
  end.
Proof.
  intros Hr Hm. unfold handleCopyCode.
  rewrite (falsy_false Hr), (codeBlocks_segments _ _ Hm).
  now destruct segs.
Qed.

Lemma assemble_In (sg : segment) (segs : list segment) (tail : jsstring) :
  In sg segs ->
  exists pre post, assemble segs tail = pre ++ block_text sg ++ post.
Proof.
  induction segs as [|sg0 segs IH]; intros H; [contradiction|].
  destruct H as [->|H]; cbn [assemble].
  - now exists (gap sg), (assemble segs tail).
  - destruct (IH H) as (pre & post & E).
    exists (gap sg0 ++ block_text sg0 ++ pre), post.
    now rewrite E, <- !app_assoc.
Qed.

Lemma block_text_contains (sg : segment) (pre post : jsstring) :
  well_delimited sg ->
  contains_fenced_block (pre ++ block_text sg ++ post).
Proof.
  intros [W _]. exists pre, (tag sg), (content sg), post.
  split; [assumption|]. unfold block_text.
  now flatten_app.
Qed.

Lemma no_fence_no_block (s : jsstring) :
  has_fence s = false -> ~ contains_fenced_block s.
Proof.
  intros H (pre & tg & inner & post & _ & E).
  enough (has_fence s = true) by congruence.
  apply has_fence_true. now exists pre, (tg ++ nl :: inner ++ fence ++ post).
Qed.

End CopyHandlers.

Section Examples.
Import Home Scenario.

Example matchAll_two_blocks :
  matchAll code_fence review_two_blocks =
  [MkMatch block_js (Some (js "foo()" ++ [nl]));
   MkMatch block_py (Some (js "bar()" ++ [nl]))].
Proof. reflexivity. Qed.

Example matchAll_unterminated :
  matchAll code_fence review_unterminated = [].
Proof. reflexivity. Qed.

Example matchAll_then_unterminated :
  matchAll code_fence review_then_unterminated =
  [MkMatch block_js (Some (js "foo()" ++ [nl]))].
Proof. reflexivity. Qed.

(** A fourth backtick before the fence moves the start of the match by
    one; one after it leaves no block. *)
Example matchAll_four_backticks :
  matchAll code_fence (bt :: block_js) =
    [MkMatch block_js (Some (js "foo()" ++ [nl]))] /\
  matchAll code_fence (fence ++ bt :: js "js" ++ nl :: js "foo()") = [].
Proof. split; reflexivity. Qed.

Example trim_both_ends :
  trim (js "  foo() " ++ [nl; 160%N]) = js "foo()".
Proof. reflexivity. Qed.

Example join_blank_line :
  join [nl; nl] [js "foo()"; js "bar()"] = joined_code.
Proof. reflexivity. Qed.

Example submit_null_body :
  submitHandler base_url (state_of_code user_code) (Resolved DataNull) =
  ([PreventDefault; SetLoading true;
    AxiosPost (base_url ++ js "/get-service") user_code true;
    ToastError msg_failed; SetLoading false], inr tt).
Proof. reflexivity. Qed.

End Examples.

(* ================================================================== *)
(** * The review client: copying *)
(* ================================================================== *)

Section CopySpec.
Import Home Scenario.

(** C1. On a review that holds the two fenced blocks
    [```js\nfoo()\n```] and [```py\nbar()\n```], in that order and with
    no other fence around them, handleCopyCode writes [foo()\n\nbar()]
    to the clipboard: the inner text of each block trimmed, the blocks
    joined by a blank line, in the order of the text. *)
Theorem copyCode_two_blocks (st : state) (pre mid post : jsstring) :
  has_fence pre = false ->
  has_fence mid = false ->
  has_fence post = false ->
  review st = pre ++ block_js ++ mid ++ block_py ++ post ->
  codeBlocks (review st) = ret [js "foo()"; js "bar()"] /\
  handleCopyCode st =
    ([ClipboardWriteText joined_code; ToastSuccess msg_snippets_copied],
     inr tt).
Proof.
  intros Hpre Hmid Hpost E.
  assert (matchAll code_fence (review st) =
          map segment_match
            [MkSegment pre (js "js") (js "foo()" ++ [nl]);
             MkSegment mid (js "py") (js "bar()" ++ [nl])]) as Hm.
  { rewrite E.
    change (pre ++ block_js ++ mid ++ block_py ++ post)
      with (pre ++ fence ++ js "js" ++ nl :: (js "foo()" ++ [nl]) ++ fence
            ++ (mid ++ fence ++ js "py" ++ nl :: (js "bar()" ++ [nl])
                ++ fence ++ post)).
    rewrite (matchAll_block _ _ _ _ Hpre) by reflexivity.
    rewrite (matchAll_block _ _ _ _ Hmid) by reflexivity.
    now rewrite (matchAll_no_fence _ Hpost). }
  split.
  - now rewrite (codeBlocks_segments _ _ Hm).
  - rewrite (handleCopyCode_segments st _) with (2 := Hm).
    + reflexivity.
    + rewrite E. now destruct pre.
Qed.

Lemma copyCode_two_blocks_witness :
  codeBlocks review_two_blocks = ret [js "foo()"; js "bar()"] /\
  handleCopyCode (state_of_review review_two_blocks) =
    ([ClipboardWriteText joined_code; ToastSuccess msg_snippets_copied],
     inr tt).
Proof.
  apply (copyCode_two_blocks (state_of_review review_two_blocks)
           (js "Corrected code:" ++ [nl]) (nl :: js "and" ++ [nl])
           (nl :: js "Done.")); reflexivity.
Defined.




(** C5. On a review that is not empty and holds no fenced block,
    handleCopyCode reports that no code was found and writes nothing to
    the clipboard. *)
Theorem copyCode_no_blocks (st : state) :
  review st <> [] ->
  ~ contains_fenced_block (review st) ->
  handleCopyCode st = ([ToastError msg_no_code_found], inr tt) /\
  filter is_clipboard_write (trace (handleCopyCode st)) = [].
Proof.
  intros Hr Hn.
  destruct (matchAll_segments (review st)) as (segs & tail & E & Hm & F & _).
  destruct segs as [|sg segs].
  - rewrite (handleCopyCode_segments st [] Hr Hm). now split.
  - exfalso. apply Hn. rewrite E. cbn [assemble].
    apply (block_text_contains (gap sg) (assemble segs tail)).
    now inversion F.
Qed.

Lemma copyCode_no_blocks_witness :
  handleCopyCode (state_of_review review_prose)
    = ([ToastError msg_no_code_found], inr tt) /\
  filter is_clipboard_write
    (trace (handleCopyCode (state_of_review review_prose))) = [].
Proof.
  apply (copyCode_no_blocks (state_of_review review_prose)).
  - discriminate.
  - apply no_fence_no_block. reflexivity.
Defined.

(** C6. With no review stored, handleCopyAll and handleCopyCode both
    report that there is nothing to copy and write nothing to the
    clipboard; with a review stored, handleCopyAll writes the whole
    review text, as it is, to the clipboard. *)
Theorem copy_without_review (st : state) :
  (review st = [] ->
   handleCopyAll st = ([ToastError msg_nothing_to_copy], inr tt) /\
   handleCopyCode st = ([ToastError msg_nothing_to_copy], inr tt)) /\
  (review st <> [] ->
   handleCopyAll st =
     ([ClipboardWriteText (review st); ToastSuccess msg_full_copied],
      inr tt)).
Proof.
  split.
  - intros E. unfold handleCopyAll, handleCopyCode.
    now rewrite (falsy_true E).
  - intros N. unfold handleCopyAll. now rewrite (falsy_false N).
Qed.

Lemma copy_without_review_witness :
  (handleCopyAll (state_of_review [])
     = ([ToastError msg_nothing_to_copy], inr tt) /\
   handleCopyCode (state_of_review [])
     = ([ToastError msg_nothing_to_copy], inr tt)) /\
  handleCopyAll (state_of_review review_prose) =
    ([ClipboardWriteText review_prose; ToastSuccess msg_full_copied], inr tt).
Proof.
  split.
  - apply (proj1 (copy_without_review (state_of_review []))). reflexivity.
  - apply (proj2 (copy_without_review (state_of_review review_prose))).
    discriminate.
Defined.

(** C10. handleCopyCode extracts a block only where the text has a
    fence, a tag of word characters (possibly none), a newline right
    after it, and a closing fence further on.  What follows a fence
    that no fence follows is never extracted: every block ends on that
    fence at the latest; and when no fence precedes it either, the
    review has no block at all and handleCopyCode reports that no code
    was found. *)
Theorem unterminated_fence_not_extracted (review : jsstring) :
  (forall m, In m (matchAll code_fence review) ->
     exists pre tg inner post,
       review = pre ++ fence ++ tg ++ nl :: inner ++ fence ++ post /\
       forallb is_word tg = true /\
       m_whole m = fence ++ tg ++ nl :: inner ++ fence /\
       m_group1 m = Some inner) /\
  (forall pre rest,
     review = pre ++ fence ++ rest ->
     has_fence rest = false ->
     (exists segs x,
        review = assemble segs (x ++ rest) /\
        matchAll code_fence review = map segment_match segs) /\
     (has_fence pre = false ->
      matchAll code_fence review = [] /\
      forall st, Home.review st = review ->
        handleCopyCode st = ([ToastError msg_no_code_found], inr tt))).
Proof.
  split.
  - intros m Hin.
    destruct (matchAll_segments review) as (segs & tail & E & Hm & F & _).
    rewrite Hm in Hin. apply in_map_iff in Hin as (sg & <- & Hsg).
    destruct (@assemble_In sg segs tail Hsg) as (pre & post & E').
    rewrite Forall_forall in F. destruct (F _ Hsg) as [W _].
    exists pre, (tag sg), (content sg), post. repeat split; try assumption.
    rewrite E, E'. unfold block_text.
    now flatten_app.
  - intros pre rest E H0.
    destruct (@matchAll_keeps_out rest (length review) review eq_refl)
      as (segs & x & Ea & Hm & F).
    { exists (pre ++ fence). now rewrite <- app_assoc. }
    { intros A inner r L Er. rewrite E in Er.
      exact (@closing_fence_not_after pre rest A inner r H0 L Er). }
    split; [now exists segs, x|].
    intros Hp.
    assert (segs = []) as ->.
    { destruct segs as [|sg segs]; [reflexivity|exfalso].
      enough (has_fence pre = true) by congruence.
      cbn [assemble] in Ea. rewrite assemble_app in Ea. rewrite E in Ea.
      replace (gap sg ++ block_text sg ++ assemble segs x ++ rest)
        with ((gap sg ++ block_text sg ++ assemble segs x) ++ rest) in Ea
        by now rewrite <- !app_assoc.
      rewrite (app_assoc pre fence rest) in Ea.
      apply app_inv_tail in Ea.
      unfold block_text in Ea.
      replace (gap sg ++ (fence ++ tag sg ++ nl :: content sg ++ fence)
               ++ assemble segs x)
        with ((gap sg ++ fence)
              ++ tag sg ++ nl :: content sg ++ fence ++ assemble segs x) in Ea
        by now flatten_app.
      apply app_eq_app in Ea as [l [[E1 E2]|[E1 E2]]].
      - apply has_fence_true. exists (gap sg), l.
        now rewrite E1, <- app_assoc.
      - assert (In nl fence) as Hin.
        { rewrite E2. apply in_or_app. right. apply in_or_app. right.
          now left. }
        cbn in Hin. now repeat destruct Hin as [Hin|Hin]. }
    split; [exact Hm|].
    intros st Hst. subst review.
    apply (handleCopyCode_segments st []).
    + rewrite Hst. now destruct pre.
    + now rewrite Hst.
Qed.

End CopySpec.

Section CopySpecWitness.
Import Home Scenario.

Lemma unterminated_fence_not_extracted_witness :
  (exists pre tg inner post,
     review_then_unterminated
       = pre ++ fence ++ tg ++ nl :: inner ++ fence ++ post /\
     forallb is_word tg = true /\
     block_js = fence ++ tg ++ nl :: inner ++ fence /\
     Some (js "foo()" ++ [nl]) = Some inner) /\
  (exists segs x,
     review_then_unterminated
       = assemble segs (x ++ js "py" ++ nl :: js "bar()") /\
     matchAll code_fence review_then_unterminated
       = map segment_match segs) /\
  (matchAll code_fence review_unterminated = [] /\
   forall st, review st = review_unterminated ->
     handleCopyCode st = ([ToastError msg_no_code_found], inr tt)).
Proof.
  split; [|split].
  - apply (proj1 (unterminated_fence_not_extracted review_then_unterminated)
             (MkMatch block_js (Some (js "foo()" ++ [nl])))).
    vm_compute. left. reflexivity.
  - apply (proj1 (proj2
             (unterminated_fence_not_extracted review_then_unterminated)
             (block_js ++ [nl]) (js "py" ++ nl :: js "bar()")
             eq_refl eq_refl)).
  - apply (proj2 (proj2
             (unterminated_fence_not_extracted review_unterminated)
             (js "Try:" ++ [nl]) (js "js" ++ nl :: js "foo()")
             eq_refl eq_refl)).
    reflexivity.
Defined.

End CopySpecWitness.

(* ================================================================== *)
(** * The review client: submitting *)
(* ================================================================== *)

Section SubmitSpec.
Import Home Scenario.

Lemma trimStart_blank (s : jsstring) :
  forallb is_space s = true -> trimStart s = [].
Proof.
  induction s as [|c s IH]; cbn; [reflexivity|].
  intros H. apply andb_prop in H as [-> H]. auto.
Qed.

Lemma trim_blank (s : jsstring) : forallb is_space s = true -> trim s = [].
Proof. intros H. unfold trim. now rewrite (trimStart_blank _ H). Qed.

(** The calls of a submit that goes out, for each way the POST settles. *)
Lemma submitHandler_sent (base_url : jsstring) (st : state)
    (reply : post_outcome) :
  trim (code st) <> [] ->
  submitHandler base_url st reply =
  (PreventDefault :: SetLoading true
   :: AxiosPost (base_url ++ js "/get-service") (code st) true
   :: match reply with
      | Resolved (DataString s) =>
          [ToastSuccess msg_reviewed; SetReview s; SetCode []]
      | Resolved (DataObject message pretty) =>
          [ToastSuccess (or_default message msg_reviewed);
           SetReview pretty; SetCode []]
      | Resolved DataNull => [ToastError msg_failed]
      | Rejected _ => [ToastError msg_failed]
      end ++ [SetLoading false],
   inr tt).
Proof.
  intros H. unfold submitHandler. rewrite (falsy_false H).
  destruct reply as [[s|message pretty|]|e]; reflexivity.
Qed.

(** C3. A submit of code that is not blank goes Idle, Submitting, Idle
    once: loading is set to true once, before the POST, and to false
    once, at the end, however the POST settles (the gateway answers,
    the POST rejects, or the handler throws on the answer); no error
    leaves the handler and loading is false afterwards. *)
Theorem submit_releases_loading (base_url : jsstring) (st : state)
    (reply : post_outcome) :
  trim (code st) <> [] ->
  completion (submitHandler base_url st reply) = inr tt /\
  loading_writes (trace (submitHandler base_url st reply)) = [true; false] /\
  length (filter is_post (trace (submitHandler base_url st reply))) = 1 /\
  loading (run st (trace (submitHandler base_url st reply))) = false /\
  (loading st = false ->
   transitions
     (map phase_of (states st (trace (submitHandler base_url st reply))))
   = [Idle; Submitting; Idle]).
Proof.
  intros H. rewrite (submitHandler_sent base_url st reply H).
  destruct st as [c r l]. cbn [loading].
  destruct reply as [[s|message pretty|]|e]; repeat split;
    intros ->; reflexivity.
Qed.

Lemma submit_releases_loading_witness :
  completion (submitHandler base_url (state_of_code user_code)
                (Rejected network_down)) = inr tt /\
  loading_writes (trace (submitHandler base_url (state_of_code user_code)
                           (Rejected network_down))) = [true; false] /\
  length (filter is_post
            (trace (submitHandler base_url (state_of_code user_code)
                      (Rejected network_down)))) = 1 /\
  loading (run (state_of_code user_code)
             (trace (submitHandler base_url (state_of_code user_code)
                       (Rejected network_down)))) = false /\
  transitions
    (map phase_of
       (states (state_of_code user_code)
          (trace (submitHandler base_url (state_of_code user_code)
                    (Rejected network_down)))))
  = [Idle; Submitting; Idle].
Proof.
  destruct (submit_releases_loading base_url (state_of_code user_code)
              (Rejected network_down)) as (H1 & H2 & H3 & H4 & H5).
  - discriminate.
  - exact (conj H1 (conj H2 (conj H3 (conj H4 (H5 eq_refl))))).
Defined.

(** C4. A submit of code that is empty or all white space sends
    nothing: the handler alerts and returns, no POST goes out, and the
    state, loading flag and stored review included, is as before. *)
Theorem submit_blank_sends_nothing (base_url : jsstring) (st : state)
    (reply : post_outcome) :
  forallb is_space (code st) = true ->
  submitHandler base_url st reply
    = ([PreventDefault; Alert msg_write_some_code], inr tt) /\
  filter is_post (trace (submitHandler base_url st reply)) = [] /\
  run st (trace (submitHandler base_url st reply)) = st.
Proof.
  intros H. unfold submitHandler. rewrite (trim_blank _ H).
  now repeat split.
Qed.

Lemma submit_blank_sends_nothing_witness :
  submitHandler base_url (state_of_code (js "  " ++ [nl; 9%N]))
      (Resolved (DataString review_prose))
    = ([PreventDefault; Alert msg_write_some_code], inr tt) /\
  filter is_post
    (trace (submitHandler base_url (state_of_code (js "  " ++ [nl; 9%N]))
              (Resolved (DataString review_prose)))) = [] /\
  run (state_of_code (js "  " ++ [nl; 9%N]))
    (trace (submitHandler base_url (state_of_code (js "  " ++ [nl; 9%N]))
              (Resolved (DataString review_prose))))
  = state_of_code (js "  " ++ [nl; 9%N]).
Proof.
  apply (submit_blank_sends_nothing base_url
           (state_of_code (js "  " ++ [nl; 9%N]))
           (Resolved (DataString review_prose))).
  reflexivity.
Defined.

(** C7. When the POST rejects, the handler shows the failure toast,
    never calls setReview, so that the stored review is what it was,
    and sets loading back to false. *)
Theorem submit_failure_keeps_review (base_url : jsstring) (st : state)
    (error : js_error) :
  trim (code st) <> [] ->
  trace (submitHandler base_url st (Rejected error)) =
    [PreventDefault; SetLoading true;
     AxiosPost (base_url ++ js "/get-service") (code st) true;
     ToastError msg_failed; SetLoading false] /\
  review (run st (trace (submitHandler base_url st (Rejected error))))
    = review st /\
  loading (run st (trace (submitHandler base_url st (Rejected error))))
    = false.
Proof.
  intros H. rewrite (submitHandler_sent base_url st (Rejected error) H).
  now repeat split.
Qed.

Lemma submit_failure_keeps_review_witness :
  trace (submitHandler base_url (state_of_code user_code)
           (Rejected network_down)) =
    [PreventDefault; SetLoading true;
     AxiosPost (base_url ++ js "/get-service") user_code true;
     ToastError msg_failed; SetLoading false] /\
  review (run (state_of_code user_code)
            (trace (submitHandler base_url (state_of_code user_code)
                      (Rejected network_down))))
    = js "an earlier review" /\
  loading (run (state_of_code user_code)
             (trace (submitHandler base_url (state_of_code user_code)
                       (Rejected network_down))))
    = false.
Proof.
  apply (submit_failure_keeps_review base_url (state_of_code user_code)
           network_down).
  discriminate.
Defined.

(** C9. A submit that the gateway answers with a text or a JSON
    document stores the review and sets the code input to the empty
    string; a submit whose POST rejects, or whose answer makes the
    handler throw, leaves the code input as the user typed it. *)
Theorem submit_clears_code_on_success_only (base_url : jsstring) (st : state) :
  trim (code st) <> [] ->
  (forall data, data <> DataNull ->
     code (run st (trace (submitHandler base_url st (Resolved data)))) = [] /\
     review (run st (trace (submitHandler base_url st (Resolved data))))
       = review_text data) /\
  (forall error,
     code (run st (trace (submitHandler base_url st (Rejected error))))
       = code st) /\
  code (run st (trace (submitHandler base_url st (Resolved DataNull))))
    = code st.
Proof.
  intros H. split; [|split].
  - intros data Hd.
    rewrite (submitHandler_sent base_url st (Resolved data) H).
    now destruct data.
  - intros error.
    rewrite (submitHandler_sent base_url st (Rejected error) H).
    reflexivity.
  - rewrite (submitHandler_sent base_url st (Resolved DataNull) H).
    reflexivity.
Qed.

Lemma submit_clears_code_on_success_only_witness :
  (code (run (state_of_code user_code)
           (trace (submitHandler base_url (state_of_code user_code)
                     (Resolved (DataString review_two_blocks))))) = [] /\
   review (run (state_of_code user_code)
             (trace (submitHandler base_url (state_of_code user_code)
                       (Resolved (DataString review_two_blocks)))))
     = review_two_blocks) /\
  code (run (state_of_code user_code)
          (trace (submitHandler base_url (state_of_code user_code)
                    (Rejected network_down))))
    = user_code.
Proof.
  destruct (submit_clears_code_on_success_only base_url
              (state_of_code user_code)) as (H1 & H2 & _).
  - discriminate.
  - split.
    + apply (H1 (DataString review_two_blocks)). discriminate.
    + apply (H2 network_down).
Defined.

End SubmitSpec.

(* ================================================================== *)
(** * The gateway service *)
(* ================================================================== *)

Section ServiceSpec.
Import AiService.

(** C8. Whatever the error, when the provider call rejects, or when
    reading the text of its response throws, main logs the error and
    throws it again to its caller: one handling for every kind of
    error, and one provider call, never a second one.  When the call
    succeeds, main returns the text of the response as it is. *)
Theorem main_rethrows_or_returns_text (systemInstruction prompt : jsstring) :
  (forall error,
     main systemInstruction prompt (ProviderRejects error) =
     ([GetGenerativeModel (js "gemini-2.5-flash") systemInstruction;
       GenerateContent [prompt];
       ConsoleError (js "Error generating content:") error],
      inl error)) /\
  (forall error,
     main systemInstruction prompt (ProviderResolves (inl error)) =
     ([GetGenerativeModel (js "gemini-2.5-flash") systemInstruction;
       GenerateContent [prompt];
       ConsoleError (js "Error generating content:") error],
      inl error)) /\
  (forall text,
     main systemInstruction prompt (ProviderResolves (inr text)) =
     ([GetGenerativeModel (js "gemini-2.5-flash") systemInstruction;
       GenerateContent [prompt]],
      inr text)) /\
  (forall reply,
     length (filter is_provider_call
               (trace (main systemInstruction prompt reply))) = 1).
Proof.
  repeat split.
  intros [error|[error|text]]; reflexivity.
Qed.

End ServiceSpec.

(* ================================================================== *)
(** * More on copying *)
(* ================================================================== *)

Section CopyMore.
Import Home Scenario.

(** The three ways handleCopyCode ends. *)
Lemma handleCopyCode_cases (st : state) :
  handleCopyCode st = ([ToastError msg_nothing_to_copy], inr tt) \/
  handleCopyCode st = ([ToastError msg_no_code_found], inr tt) \/
  exists sg segs tail,
    review st = assemble (sg :: segs) tail /\
    Forall well_delimited (sg :: segs) /\
    handleCopyCode st =
      ([ClipboardWriteText
          (join [nl; nl] (map (fun sg => trim (content sg)) (sg :: segs)));
        ToastSuccess msg_snippets_copied], inr tt).
Proof.
  destruct (review st) as [|c r] eqn:Er.
  - left. unfold handleCopyCode. now rewrite Er.
  - right.
    destruct (matchAll_segments (review st)) as (segs & tail & E & Hm & F & _).
    assert (review st <> []) as Hr by now rewrite Er.
    rewrite (handleCopyCode_segments st segs Hr Hm).
    destruct segs as [|sg segs]; [now left|right].
    exists sg, segs, tail. rewrite <- Er. now repeat split.
Qed.

(** X1. The extraction step of handleCopyCode never throws on a
    review string: capture 1 takes part in every match of the pattern,
    so m[1].trim() is always the trim of a string, and the step
    completes with one text for each match. *)
Theorem extraction_never_throws (review : jsstring) :
  Forall (fun m => m_group1 m <> None) (matchAll code_fence review) /\
  exists blocks,
    codeBlocks review = ret blocks /\
    length blocks = length (matchAll code_fence review).
Proof.
  destruct (matchAll_segments review) as (segs & tail & _ & Hm & _ & _).
  split.
  - rewrite Hm. apply Forall_map, Forall_forall. intros sg _. discriminate.
  - exists (map (fun sg => trim (content sg)) segs).
    rewrite (codeBlocks_segments _ _ Hm), Hm. now rewrite !length_map.
Qed.

(** X2. On a review that is not empty, handleCopyCode writes to the
    clipboard exactly when the review holds a fenced block: a fence, a
    tag of word characters (possibly none), a newline, any text, a
    fence. *)
Theorem copyCode_copies_iff_block (st : state) :
  review st <> [] ->
  (contains_fenced_block (review st) <->
   exists text,
     handleCopyCode st =
       ([ClipboardWriteText text; ToastSuccess msg_snippets_copied],
        inr tt)).
Proof.
  intros Hr. split.
  - intros Hc. apply fenced_block_is_found in Hc.
    destruct (matchAll_segments (review st)) as (segs & tail & E & Hm & F & _).
    rewrite (handleCopyCode_segments st segs Hr Hm).
    destruct segs as [|sg segs].
    + now rewrite Hm in Hc.
    + eexists. reflexivity.
  - intros [text Ht].
    destruct (handleCopyCode_cases st)
      as [E|[E|(sg & segs & tail & E & F & _)]];
      try (rewrite E in Ht; discriminate Ht).
    rewrite E. cbn [assemble].
    apply (block_text_contains (gap sg) (assemble segs tail)).
    now inversion F.
Qed.

Lemma copyCode_copies_iff_block_witness :
  contains_fenced_block review_two_blocks <->
  exists text,
    handleCopyCode (state_of_review review_two_blocks) =
      ([ClipboardWriteText text; ToastSuccess msg_snippets_copied], inr tt).
Proof.
  apply (copyCode_copies_iff_block (state_of_review review_two_blocks)).
  discriminate.
Defined.

(** X3. Blocks put into a text come out of it.  For every list of
    blocks whose tags are word characters and whose inner texts hold no
    fence start, laid out in a text with fence-free parts before,
    between and after them, the matches are these blocks, in order, and
    handleCopyCode writes their trimmed inner texts joined by blank
    lines. *)
Theorem blocks_round_trip (segs : list segment) (tail : jsstring) :
  Forall (fun sg => has_fence (gap sg) = false /\ well_delimited sg) segs ->
  has_fence tail = false ->
  matchAll code_fence (assemble segs tail) = map segment_match segs /\
  codeBlocks (assemble segs tail)
    = ret (map (fun sg => trim (content sg)) segs) /\
  (segs <> [] ->
   forall st, review st = assemble segs tail ->
     handleCopyCode st =
       ([ClipboardWriteText
           (join [nl; nl] (map (fun sg => trim (content sg)) segs));
         ToastSuccess msg_snippets_copied], inr tt)).
Proof.
  intros F Ht.
  assert (matchAll code_fence (assemble segs tail) = map segment_match segs)
    as Hm.
  { induction F as [|sg segs [Hg [W L]] F IH]; cbn [assemble map].
    - now apply matchAll_no_fence.
    - unfold block_text at 1.
      replace (gap sg ++ (fence ++ tag sg ++ nl :: content sg ++ fence)
               ++ assemble segs tail)
        with (gap sg ++ fence ++ tag sg ++ nl :: content sg ++ fence
              ++ assemble segs tail) by now flatten_app.
      rewrite (matchAll_block _ _ _ _ Hg W L), IH. reflexivity. }
  split; [exact Hm|]. split; [now apply codeBlocks_segments|].
  intros Hs st Hst.
  assert (review st <> []) as Hr.
  { rewrite Hst. destruct segs as [|sg segs]; [contradiction|].
    cbn [assemble]. unfold block_text, fence.
    now destruct (gap sg). }
  rewrite <- Hst in Hm.
  rewrite (handleCopyCode_segments st segs Hr Hm).
  destruct segs; [contradiction|reflexivity].
Qed.

Lemma blocks_round_trip_witness :
  matchAll code_fence
    (assemble [MkSegment (js "Fix:" ++ [nl]) (js "js") (js " a`b " ++ [nl])]
       (nl :: js "Done.")) =
  map segment_match
    [MkSegment (js "Fix:" ++ [nl]) (js "js") (js " a`b " ++ [nl])] /\
  handleCopyCode
    (state_of_review
       (assemble [MkSegment (js "Fix:" ++ [nl]) (js "js") (js " a`b " ++ [nl])]
          (nl :: js "Done."))) =
  ([ClipboardWriteText (js "a`b"); ToastSuccess msg_snippets_copied], inr tt).
Proof.
  destruct (@blocks_round_trip
              [MkSegment (js "Fix:" ++ [nl]) (js "js") (js " a`b " ++ [nl])]
              (nl :: js "Done.")) as (H1 & _ & H3).
  - repeat constructor.
  - reflexivity.
  - split; [exact H1|]. apply H3; [discriminate|reflexivity].
Defined.

Lemma has_fence_sep (c : code_unit) (a b : jsstring) :
  (c =? bt)%N = false ->
  has_fence (a ++ c :: b) = has_fence a || has_fence b.
Proof.
  intros Hc. induction a as [|x a IH].
  - now apply has_fence_cons_other.
  - change ((x :: a) ++ c :: b) with (x :: (a ++ c :: b)).
    cbn [has_fence]. rewrite IH.
    replace (strip_fence (x :: a ++ c :: b)) with
      (match strip_fence (x :: a) with
       | Some r => Some (r ++ c :: b)
       | None => None
       end).
    + now destruct (strip_fence (x :: a)).
    + unfold strip_fence. destruct a as [|y [|z a]]; cbn [app].
      * now destruct b as [|d b]; rewrite ?Hc, ?andb_false_r.
      * now rewrite Hc, andb_false_r.
      * now destruct ((x =? bt)%N && (y =? bt)%N && (z =? bt)%N).
Qed.

Lemma has_fence_join (xs : list jsstring) :
  Forall (fun x => has_fence x = false) xs ->
  has_fence (join [nl; nl] xs) = false.
Proof.
  induction 1 as [|x xs Hx F IH]; [reflexivity|].
  destruct xs as [|y xs]; [exact Hx|].
  change (join [nl; nl] (x :: y :: xs))
    with (x ++ nl :: nl :: join [nl; nl] (y :: xs)).
  rewrite has_fence_sep by reflexivity. rewrite Hx. cbn [orb].
  now rewrite has_fence_cons_other.
Qed.

Lemma has_fence_trim (s : jsstring) :
  has_fence s = false -> has_fence (trim s) = false.
Proof.
  intros H. destruct (trim_trimmed_from s) as (l & r & E & _).
  rewrite E in H. apply has_fence_app_false in H as [_ H].
  now apply has_fence_app_false in H as [H _].
Qed.

(** X4. What handleCopyCode writes to the clipboard never holds a
    fence: the copied code is free of triple backticks. *)
Theorem copied_code_has_no_fence (st : state) (text : jsstring) :
  In (ClipboardWriteText text) (trace (handleCopyCode st)) ->
  has_fence text = false.
Proof.
  intros Hin.
  destruct (handleCopyCode_cases st)
    as [E|[E|(sg & segs & tail & _ & F & E)]]; rewrite E in Hin;
    cbn [trace fst] in Hin.
  - destruct Hin as [Hin|[]]. discriminate Hin.
  - destruct Hin as [Hin|[]]. discriminate Hin.
  - destruct Hin as [Hin|[Hin|[]]]; [|discriminate Hin].
    injection Hin as <-.
    apply (@has_fence_join
             (map (fun sg => trim (content sg)) (sg :: segs))).
    apply Forall_map. eapply Forall_impl; [|exact F].
    intros s' [_ L]. apply has_fence_trim.
    now apply has_fence_app_false in L as [L _].
Qed.

Lemma copied_code_has_no_fence_witness : has_fence joined_code = false.
Proof.
  apply (copied_code_has_no_fence (state_of_review review_two_blocks)).
  left. reflexivity.
Defined.

End CopyMore.

(* ================================================================== *)
(** * More on submitting *)
(* ================================================================== *)

Section SubmitMore.
Import Home Scenario.

Lemma trim_nil_blank (s : jsstring) :
  trim s = [] -> forallb is_space s = true.
Proof.
  intros E. destruct (trim_trimmed_from s) as (l & r & Es & Hl & Hr & _).
  rewrite E in Es. rewrite Es. cbn [app].
  rewrite forallb_app. now rewrite Hl, Hr.
Qed.

Lemma not_blank_trim (s : jsstring) :
  forallb is_space s = false -> trim s <> [].
Proof.
  intros H E. apply trim_nil_blank in E. congruence.
Qed.

(** X5. A submit sends a request exactly when the code holds a code
    unit that is not white space; the request is one POST to
    base/get-service, with credentials, and its body carries the code
    as typed, white space at the ends included. *)
Theorem submit_sends_iff_not_blank (base_url : jsstring) (st : state)
    (reply : post_outcome) :
  filter is_post (trace (submitHandler base_url st reply)) =
  if forallb is_space (code st) then []
  else [AxiosPost (base_url ++ js "/get-service") (code st) true].
Proof.
  destruct (forallb is_space (code st)) eqn:B.
  - unfold submitHandler. now rewrite (trim_blank _ B).
  - rewrite (submitHandler_sent base_url st reply (not_blank_trim _ B)).
    now destruct reply as [[s|message pretty|]|e].
Qed.

(** The state after a submit that went out. *)
Lemma submitHandler_state (base_url : jsstring) (st : state)
    (reply : post_outcome) :
  trim (code st) <> [] ->
  run st (trace (submitHandler base_url st reply)) =
  match reply with
  | Resolved (DataString s) => MkState [] s false
  | Resolved (DataObject _ pretty) => MkState [] pretty false
  | Resolved DataNull | Rejected _ => MkState (code st) (review st) false
  end.
Proof.
  intros H. rewrite (submitHandler_sent base_url st reply H).
  now destruct reply as [[s|message pretty|]|e].
Qed.



(** X7. Submitting again right after a submit: after a success the
    code input is empty, so the second submit alerts and sends nothing;
    after a failure the second submit does what a first submit of the
    same code does, so the user can retry without typing again. *)
Theorem resubmit (base_url : jsstring) (st : state) (again : post_outcome) :
  trim (code st) <> [] ->
  (forall data,
     data <> DataNull ->
     submitHandler base_url
       (run st (trace (submitHandler base_url st (Resolved data)))) again
     = ([PreventDefault; Alert msg_write_some_code], inr tt)) /\
  (forall error,
     submitHandler base_url
       (run st (trace (submitHandler base_url st (Rejected error)))) again
     = submitHandler base_url st again).
Proof.
  intros H. split.
  - intros data Hd.
    rewrite (submitHandler_state base_url st (Resolved data) H).
    now destruct data.
  - intros error.
    rewrite (submitHandler_state base_url st (Rejected error) H).
    reflexivity.
Qed.

Lemma resubmit_witness :
  submitHandler base_url
    (run (state_of_code user_code)
       (trace (submitHandler base_url (state_of_code user_code)
                 (Resolved (DataString review_prose)))))
    (Resolved (DataString review_prose))
  = ([PreventDefault; Alert msg_write_some_code], inr tt) /\
  submitHandler base_url
    (run (state_of_code user_code)
       (trace (submitHandler base_url (state_of_code user_code)
                 (Rejected network_down))))
    (Resolved (DataString review_prose))
  = submitHandler base_url (state_of_code user_code)
      (Resolved (DataString review_prose)).
Proof.
  destruct (resubmit base_url (state_of_code user_code)
              (Resolved (DataString review_prose))) as [H1 H2].
  - discriminate.
  - split.
    + apply (H1 (DataString review_prose)). discriminate.
    + apply (H2 network_down).
Defined.

End SubmitMore.

(* ================================================================== *)
(** * The component over a session *)
(* ================================================================== *)

Section SessionFacts.
Import Home View Session Scenario.

(** The calls of a submit that goes out, before and after the wait. *)
Lemma submitHandler_parts (base_url : jsstring) (st : state)
    (reply : post_outcome) :
  trim (code st) <> [] ->
  sent_part (trace (submitHandler base_url st reply)) =
    [PreventDefault; SetLoading true;
     AxiosPost (base_url ++ js "/get-service") (code st) true] /\
  settled_part (trace (submitHandler base_url st reply)) =
    match reply with
    | Resolved (DataString s) =>
        [ToastSuccess msg_reviewed; SetReview s; SetCode []]
    | Resolved (DataObject message pretty) =>
        [ToastSuccess (or_default message msg_reviewed);
         SetReview pretty; SetCode []]
    | Resolved DataNull => [ToastError msg_failed]
    | Rejected _ => [ToastError msg_failed]
    end ++ [SetLoading false] /\
  existsb is_post (trace (submitHandler base_url st reply)) = true.
Proof.
  intros H. rewrite (submitHandler_sent base_url st reply H).
  now destruct reply as [[s|message pretty|]|e].
Qed.

Lemma submitHandler_blank_parts (base_url : jsstring) (st : state)
    (reply : post_outcome) :
  trim (code st) = [] ->
  run st (sent_part (trace (submitHandler base_url st reply))) = st /\
  existsb is_post (trace (submitHandler base_url st reply)) = false.
Proof.
  intros H. unfold submitHandler. now rewrite H.
Qed.

Lemma copy_keeps_state (st : state) :
  run st (trace (handleCopyAll st)) = st /\
  run st (trace (handleCopyCode st)) = st.
Proof.
  split.
  - unfold handleCopyAll. now destruct (falsy (review st)).
  - destruct (handleCopyCode_cases st)
      as [->|[->|(sg & segs & tail & _ & _ & ->)]]; reflexivity.
Qed.

Lemma step_consistent (base_url : jsstring) (s : session) (ev : event) :
  consistent s -> consistent (step base_url s ev).
Proof.
  destruct s as [st fl]. unfold consistent. cbn [in_flight component].
  intros C. destruct ev as [value|reply|i| |]; cbn [step component in_flight].
  - destruct fl as [|t [|t' fl]]; [| |contradiction].
    + now destruct st.
    + destruct C as (C1 & C2 & C3). now repeat split.
  - cbn [render submit_disabled].
    destruct (loading st) eqn:L;
      [cbn [in_flight component]; rewrite L; exact C|].
    destruct fl as [|t [|t' fl]]; [| |contradiction].
    2:{ destruct C as [C _]. discriminate C. }
    destruct (trim (code st)) as [|c r] eqn:T.
    + destruct (submitHandler_blank_parts base_url st reply T) as [-> ->].
      exact L.
    + assert (trim (code st) <> []) as N by now rewrite T.
      destruct (submitHandler_parts base_url st reply N) as (-> & -> & ->).
      cbn [app]. repeat split.
      * now destruct reply as [[x|message pretty|]|e].
      * intros st'. now destruct reply as [[x|message pretty|]|e].
  - destruct fl as [|t [|t' fl]]; [| |contradiction].
    + now destruct i.
    + destruct C as (C1 & C2 & C3).
      destruct i as [|i]; cbn [nth_error].
      * cbn. apply C3.
      * destruct i; cbn [nth_error]; now repeat split.
  - rewrite (proj1 (copy_keeps_state st)). exact C.
  - rewrite (proj2 (copy_keeps_state st)). exact C.
Qed.

Lemma replay_consistent (base_url : jsstring) (evs : list event) :
  forall s, consistent s -> consistent (replay base_url s evs).
Proof.
  induction evs as [|ev evs IH]; intros s C; [exact C|].
  apply IH. now apply step_consistent.
Qed.

Lemma replay_app (base_url : jsstring) (s : session) (evs evs' : list event) :
  replay base_url s (evs ++ evs') =
  replay base_url (replay base_url s evs) evs'.
Proof. apply fold_left_app. Qed.

(** X8. In a session that starts with the freshly mounted component,
    whatever the user does and however the requests settle, at most
    one POST is in flight, loading is true and the submit button is
    disabled exactly while there is one, and once it has settled
    nothing is in flight and the button is enabled again. *)
Theorem one_request_in_flight (base_url : jsstring) (evs : list event) :
  length (in_flight (replay base_url initial evs)) <= 1 /\
  loading (component (replay base_url initial evs)) =
    negb (length (in_flight (replay base_url initial evs)) =? 0) /\
  submit_disabled (render (component (replay base_url initial evs))) =
    loading (component (replay base_url initial evs)) /\
  in_flight (replay base_url initial (evs ++ [Settle 0])) = [] /\
  loading (component (replay base_url initial (evs ++ [Settle 0]))) = false.
Proof.
  assert (consistent (replay base_url initial evs)) as C
    by now apply replay_consistent.
  rewrite replay_app. cbn [replay fold_left step].
  destruct (replay base_url initial evs) as [st fl].
  unfold consistent in C. cbn [in_flight component] in *.
  destruct fl as [|t [|t' fl]]; [| |contradiction].
  - cbn. rewrite C. repeat split; lia.
  - destruct C as (C1 & C2 & C3). cbn. rewrite C1.
    repeat split; try lia. apply C3.
Qed.

(** X9. Typing while a request is in flight: when the POST succeeds the
    handler sets the code to the empty string, so what was typed in
    the meantime is gone; when it fails, what was typed stays. *)
Theorem typing_in_flight (base_url : jsstring) (st : state)
    (value : jsstring) :
  loading st = false ->
  trim (code st) <> [] ->
  (forall data,
     data <> DataNull ->
     component (replay base_url (MkSession st [])
                  [Click (Resolved data); Change value; Settle 0])
     = MkState [] (review_text data) false) /\
  (forall error,
     component (replay base_url (MkSession st [])
                  [Click (Rejected error); Change value; Settle 0])
     = MkState value (review st) false).
Proof.
  intros L H. split.
  - intros data Hd. cbn [replay fold_left step component in_flight].
    cbn [render submit_disabled]. rewrite L.
    destruct (submitHandler_parts base_url st (Resolved data) H)
      as (-> & -> & ->).
    destruct data as [s|message pretty|]; [reflexivity|reflexivity|].
    contradiction.
  - intros error. cbn [replay fold_left step component in_flight].
    cbn [render submit_disabled]. rewrite L.
    destruct (submitHandler_parts base_url st (Rejected error) H)
      as (-> & -> & ->).
    reflexivity.
Qed.

Lemma typing_in_flight_witness :
  component (replay base_url (MkSession (state_of_code user_code) [])
               [Click (Resolved (DataString review_prose));
                Change (js "let x = 1"); Settle 0])
  = MkState [] review_prose false /\
  component (replay base_url (MkSession (state_of_code user_code) [])
               [Click (Rejected network_down);
                Change (js "let x = 1"); Settle 0])
  = MkState (js "let x = 1") (js "an earlier review") false.
Proof.
  destruct (typing_in_flight base_url (state_of_code user_code)
              (js "let x = 1")) as [H1 H2].
  - reflexivity.
  - discriminate.
  - split.
    + apply (H1 (DataString review_prose)). discriminate.
    + apply (H2 network_down).
Defined.

(** X10. The stored review changes only when a POST settles: typing,
    clicking the submit button and clicking a copy button leave it as
    it is. *)
Theorem review_changes_on_settle_only (base_url : jsstring) (s : session)
    (ev : event) :
  (forall i, ev <> Settle i) ->
  review (component (step base_url s ev)) = review (component s).
Proof.
  intros N. destruct s as [st fl].
  destruct ev as [value|reply|i| |]; cbn [step component in_flight].
  - now destruct st.
  - destruct (submit_disabled (render st)); [reflexivity|].
    cbn [component].
    destruct (trim (code st)) as [|c r] eqn:T.
    + now rewrite (proj1 (submitHandler_blank_parts base_url st reply T)).
    + assert (trim (code st) <> []) as H by now rewrite T.
      destruct (submitHandler_parts base_url st reply H) as (-> & _).
      reflexivity.
  - now destruct (N i).
  - now rewrite (proj1 (copy_keeps_state st)).
  - now rewrite (proj2 (copy_keeps_state st)).
Qed.

Lemma review_changes_on_settle_only_witness :
  review (component
            (step base_url (MkSession (state_of_code user_code) [])
               (Click (Resolved (DataString review_prose)))))
  = js "an earlier review".
Proof.
  apply (@review_changes_on_settle_only base_url
           (MkSession (state_of_code user_code) [])
           (Click (Resolved (DataString review_prose)))).
  discriminate.
Defined.

(** X11. What the user sees around a submit: from the click until the
    POST settles the button is disabled and reads Reviewing, the editor
    still shows the code and the panel shows what it showed; once a
    text that is not empty has come back the editor is empty, the
    button is enabled and reads Review Code, and the panel renders that
    text. *)
Theorem view_around_submit (base_url : jsstring) (st : state)
    (text : jsstring) :
  loading st = false ->
  trim (code st) <> [] ->
  text <> [] ->
  render (component (replay base_url (MkSession st [])
                       [Click (Resolved (DataString text))]))
  = MkView (code st) true label_reviewing (review_panel (render st)) /\
  render (component (replay base_url (MkSession st [])
                       [Click (Resolved (DataString text)); Settle 0]))
  = MkView [] false label_review_code (ReactMarkdown text).
Proof.
  intros L H Ht. cbn [replay fold_left step component in_flight].
  cbn [render submit_disabled]. rewrite L.
  destruct (submitHandler_parts base_url st (Resolved (DataString text)) H)
    as (-> & -> & ->).
  split.
  - reflexivity.
  - destruct text as [|c text]; [contradiction|reflexivity].
Qed.

Lemma view_around_submit_witness :
  render (component (replay base_url (MkSession (state_of_code user_code) [])
                       [Click (Resolved (DataString review_prose))]))
  = MkView user_code true label_reviewing
      (ReactMarkdown (js "an earlier review")) /\
  render (component (replay base_url (MkSession (state_of_code user_code) [])
                       [Click (Resolved (DataString review_prose)); Settle 0]))
  = MkView [] false label_review_code (ReactMarkdown review_prose).
Proof.
  apply (@view_around_submit base_url (state_of_code user_code) review_prose).
  - reflexivity.
  - discriminate.
  - discriminate.
Defined.

End SessionFacts.

(* ================================================================== *)
(** * The code renderer of the markdown panel *)
(* ================================================================== *)

Section RendererFacts.
Import Renderer.

(** A greedy run of word characters before a continuation that cannot
    fail takes the whole run. *)
Lemma plus_greedy_whole_run {R} (g : jsstring -> R) (s : jsstring) :
  plus_greedy is_word s (fun s' => Some (g s')) =
  match s with
  | c :: _ => if is_word c then Some (g (skip_word s)) else None
  | [] => None
  end.
Proof.
  induction s as [|c s IH]; [reflexivity|].
  cbn [plus_greedy skip_word]. destruct (is_word c); [|reflexivity].
  rewrite IH. destruct s as [|d s]; [reflexivity|].
  cbn [skip_word]. now destruct (is_word d).
Qed.

Lemma rmatch_literal_app {R} (cs : jsstring) (r : regex) (s : jsstring)
    (cap : capture) (k : jsstring -> capture -> option R) :
  rmatch (literal cs r) (cs ++ s) cap k = rmatch r s cap k.
Proof.
  induction cs as [|c cs IH]; [reflexivity|].
  cbn [literal app]. rewrite rmatch_seq, rmatch_lit, N.eqb_refl. exact IH.
Qed.

Lemma rmatch_literal_inv {R} (cs : jsstring) (r : regex) (s : jsstring)
    (cap : capture) (k : jsstring -> capture -> option R) (x : R) :
  rmatch (literal cs r) s cap k = Some x ->
  exists s', s = cs ++ s' /\ rmatch r s' cap k = Some x.
Proof.
  revert s. induction cs as [|c cs IH]; intros s.
  - intros H. now exists s.
  - cbn [literal]. rewrite rmatch_seq, rmatch_lit.
    destruct s as [|c' s]; [discriminate|].
    destruct (N.eqb_spec c' c) as [->|]; [|discriminate].
    intros H. destruct (IH _ H) as (s' & -> & H'). now exists s'.
Qed.

Lemma skip_word_idempotent (s : jsstring) :
  skip_word (skip_word s) = skip_word s.
Proof.
  induction s as [|c s IH]; [reflexivity|].
  cbn [skip_word]. destruct (is_word c) eqn:Hc; [exact IH|].
  cbn [skip_word]. now rewrite Hc.
Qed.

Lemma skip_word_length (s : jsstring) : length (skip_word s) <= length s.
Proof.
  destruct (skip_word_split s) as (tg & E & _).
  rewrite E at 2. rewrite length_app. lia.
Qed.

(** A match of the pattern at the start of [s]: the text language-, a
    run of word characters that is not empty, and no word character
    after it. *)
Lemma exec_at_language_class (s : jsstring) (m : match_result)
    (rest : jsstring) :
  exec_at language_class s = Some (m, rest) ->
  exists tg,
    s = js "language-" ++ tg ++ rest /\
    m = MkMatch (js "language-" ++ tg) (Some tg) /\
    tg <> [] /\ forallb is_word tg = true /\ skip_word rest = rest.
Proof.
  unfold exec_at, language_class. intros H.
  apply rmatch_literal_inv in H as (s' & -> & H).
  cbn [rmatch] in H.
  rewrite (plus_greedy_whole_run
             (fun r => (MkMatch
                          (firstn (length (js "language-" ++ s') - length r)
                             (js "language-" ++ s'))
                          (Some (firstn (length s' - length r) s')), r)))
    in H.
  destruct s' as [|c s']; [discriminate|].
  destruct (is_word c) eqn:Hc; [|discriminate].
  destruct (skip_word_split (c :: s')) as (tg & E & W).
  pose proof (skip_word_idempotent (c :: s')) as I.
  pose proof (skip_word_length s') as Len.
  assert (skip_word (c :: s') = skip_word s') as Es
    by (cbn [skip_word]; now rewrite Hc).
  remember (skip_word (c :: s')) as r eqn:Hr.
  rewrite E in H. rewrite (app_assoc (js "language-") tg) in H.
  rewrite !firstn_before in H. injection H as <- <-.
  exists tg. rewrite E. repeat split; try assumption.
  intros ->. cbn [app] in E.
  apply (f_equal (@length _)) in E. rewrite Es in E. cbn [length] in E. lia.
Qed.

Lemma exec_at_language_class_found (tg rest : jsstring) :
  tg <> [] -> forallb is_word tg = true -> skip_word rest = rest ->
  exec_at language_class (js "language-" ++ tg ++ rest) =
  Some (MkMatch (js "language-" ++ tg) (Some tg), rest).
Proof.
  intros N W S. unfold exec_at, language_class.
  rewrite rmatch_literal_app. cbn [rmatch].
  rewrite (plus_greedy_whole_run
             (fun r => (MkMatch
                          (firstn
                             (length (js "language-" ++ tg ++ rest) - length r)
                             (js "language-" ++ tg ++ rest))
                          (Some (firstn (length (tg ++ rest) - length r)
                                   (tg ++ rest))), r))).
  assert (skip_word (tg ++ rest) = rest) as E.
  { clear N. induction tg as [|c tg IH]; [exact S|].
    cbn [app skip_word]. cbn [forallb] in W.
    apply andb_prop in W as [-> W]. auto. }
  rewrite E.
  assert (exists c t, tg ++ rest = c :: t /\ is_word c = true)
    as (c & t & Ht & Hc).
  { destruct tg as [|c tg]; [contradiction|]. exists c, (tg ++ rest).
    cbn [forallb] in W. apply andb_prop in W as [Hc _]. now split. }
  set (G := Some (MkMatch (firstn _ _) _, rest)).
  rewrite Ht, Hc. subst G.
  now rewrite (app_assoc (js "language-") tg), !firstn_before.
Qed.

(** A match found by the search starts somewhere in the text. *)
Lemma exec_starts_somewhere (r : regex) (s : jsstring) (m : match_result)
    (rest : jsstring) :
  exec r s = Some (m, rest) ->
  exists pre s0, s = pre ++ s0 /\ exec_at r s0 = Some (m, rest).
Proof.
  induction s as [|c s IH]; cbn [exec].
  - destruct (exec_at r []) as [res|] eqn:E; [|discriminate].
    intros [= ->]. now exists [], [].
  - destruct (exec_at r (c :: s)) as [res|] eqn:E.
    + intros [= ->]. now exists [], (c :: s).
    + intros H. destruct (IH H) as (pre & s0 & -> & H').
      now exists (c :: pre), s0.
Qed.

(** X12. The code renderer highlights a block only when it is not
    inline and its class name holds language- followed by a word
    character; the language it passes on is then a whole run of word
    characters found after language- in the class name.  For a class
    name that starts with language- and a tag, the language is that
    tag.  Inline code, and code without a class name, is rendered
    plainly with its children untouched. *)
Theorem code_language :
  (forall className children,
     code true className children = InlineCode children) /\
  (forall inline children,
     code inline None children = InlineCode children) /\
  (forall tg rest children,
     tg <> [] -> forallb is_word tg = true -> skip_word rest = rest ->
     code false (Some (js "language-" ++ tg ++ rest)) children =
     SyntaxHighlighter (Some tg) (replace_end (Lit nl) children [])) /\
  (forall className children language text,
     code false className children = SyntaxHighlighter language text ->
     exists pre tg rest,
       or_empty className = pre ++ js "language-" ++ tg ++ rest /\
       language = Some tg /\ tg <> [] /\ forallb is_word tg = true /\
       skip_word rest = rest /\
       text = replace_end (Lit nl) children []).
Proof.
  repeat split.
  - intros inline children. now destruct inline.
  - intros tg rest children N W S. unfold code. cbn [or_empty negb].
    replace (exec language_class (js "language-" ++ tg ++ rest))
      with (Some (MkMatch (js "language-" ++ tg) (Some tg), rest));
      [reflexivity|].
    symmetry.
    change (js "language-" ++ tg ++ rest)
      with (108%N :: (js "anguage-" ++ tg ++ rest)).
    cbn [exec].
    change (108%N :: (js "anguage-" ++ tg ++ rest))
      with (js "language-" ++ tg ++ rest).
    now rewrite (@exec_at_language_class_found tg rest N W S).
  - intros className children language text. unfold code. cbn [negb].
    destruct (exec language_class (or_empty className)) as [[m rest]|] eqn:E;
      [|discriminate].
    intros [= <- <-].
    apply exec_starts_somewhere in E as (pre & s0 & Es & E).
    apply exec_at_language_class in E as (tg & -> & -> & N & W & S).
    exists pre, tg, rest. now repeat split.
Qed.

Lemma code_language_witness :
  code false (Some (js "language-js")) (js "foo()" ++ [nl]) =
    SyntaxHighlighter (Some (js "js")) (js "foo()") /\
  exists pre tg rest,
    js "hljs language-py x" = pre ++ js "language-" ++ tg ++ rest /\
    Some (js "py") = Some tg /\ tg <> [] /\ forallb is_word tg = true /\
    skip_word rest = rest /\
    js "bar()" = replace_end (Lit nl) (js "bar()") [].
Proof.
  destruct code_language as (_ & _ & H3 & H4). split.
  - apply (H3 (js "js") [] (js "foo()" ++ [nl])).
    + discriminate.
    + reflexivity.
    + reflexivity.
  - apply (H4 (Some (js "hljs language-py x")) (js "bar()")
              (Some (js "py")) (js "bar()")).
    reflexivity.
Defined.

Lemma search_end_newline (s : jsstring) (c : code_unit) :
  search_end (Lit nl) (s ++ [c]) =
  if (c =? nl)%N then Some (s, MkMatch [c] None, []) else None.
Proof.
  induction s as [|x s IH].
  - cbn. now destruct (c =? nl)%N.
  - cbn [app search_end]. rewrite IH.
    replace (exec_at_end (Lit nl) (x :: s ++ [c])) with
      (@None (match_result * jsstring)).
    + now destruct (c =? nl)%N.
    + unfold exec_at_end. cbn [rmatch].
      destruct (x =? nl)%N; [|reflexivity]. now destruct s.
Qed.

(** X13. The text handed to the highlighter is the block's text without
    its final newline: one newline at the very end is removed, a text
    that does not end in a newline is passed as it is, and no other
    code unit is touched. *)
Theorem final_newline_removed (s : jsstring) (c : code_unit) :
  replace_end (Lit nl) [] [] = [] /\
  replace_end (Lit nl) (s ++ [c]) [] =
    if (c =? nl)%N then s else s ++ [c].
Proof.
  split; [reflexivity|].
  unfold replace_end. rewrite search_end_newline.
  destruct (c =? nl)%N; [|reflexivity]. now rewrite app_nil_r.
Qed.

End RendererFacts.

(* ================================================================== *)
(** * The chat component *)
(* ================================================================== *)

Section ChatFacts.
Import AiCenter.

(** X14. sendMessage keeps the chat history and adds to its end.  A
    message that is blank changes nothing and sends nothing.  Any
    other message adds two entries, whatever the outcome of the POST:
    the user's message as typed, then one from the AI, which is the
    text of the response, or the no-response note when the response
    has no text or an empty one, or the error note when the POST
    fails; the input is emptied, the loader is off at the end and one
    POST has gone out. *)
Theorem sendMessage_appends (api_key : jsstring) (st : state)
    (reply : post_outcome) :
  (forallb is_space (message st) = true ->
   sendMessage api_key st reply = ([], inr tt)) /\
  (forallb is_space (message st) = false ->
   completion (sendMessage api_key st reply) = inr tt /\
   run st (trace (sendMessage api_key st reply)) =
     MkState false []
       (chat st ++
        [MkMessage User (message st);
         MkMessage Ai
           match reply with
           | Resolved text => or_default text msg_no_response
           | Rejected _ => msg_went_wrong
           end]) /\
   filter is_post (trace (sendMessage api_key st reply)) =
     [AxiosPost (endpoint ++ api_key) model_name (message st)]).
Proof.
  split.
  - intros B. unfold sendMessage. now rewrite (trim_blank _ B).
  - intros B. unfold sendMessage.
    rewrite (falsy_false (not_blank_trim _ B)).
    destruct reply as [text|error]; cbn; rewrite <- app_assoc; now repeat split.
Qed.

Lemma sendMessage_appends_witness :
  sendMessage [] (MkState false (js "  ") []) (Resolved None)
    = ([], inr tt) /\
  run (MkState false (js "hi") [])
    (trace (sendMessage [] (MkState false (js "hi") []) (Resolved (Some []))))
  = MkState false []
      [MkMessage User (js "hi"); MkMessage Ai msg_no_response].
Proof.
  split.
  - apply (proj1 (sendMessage_appends [] (MkState false (js "  ") [])
                    (Resolved None))).
    reflexivity.
  - apply (proj2 (sendMessage_appends [] (MkState false (js "hi") [])
                    (Resolved (Some [])))).
    reflexivity.
Defined.

End ChatFacts.

(* ================================================================== *)
(** * Opening lines the pattern does not take *)
(* ================================================================== *)

Section OpeningLine.
Import Home Scenario.

Lemma scan_block_unclosed (s : jsstring) :
  has_fence s = false -> scan_block (fence ++ s) = None.
Proof.
  intros H. unfold scan_block. rewrite strip_fence_app.
  destruct (skip_word_split s) as (tg & E & _).
  destruct (skip_word s) as [|c s3]; [reflexivity|].
  destruct (c =? nl)%N; [|reflexivity].
  rewrite E in H. apply has_fence_app_false in H as [_ H].
  apply (has_fence_app_false [c] s3) in H as [_ H].
  apply find_fence_None in H. now rewrite H.
Qed.

Lemma scan_block_line_goes_on (tg : jsstring) (x : code_unit)
    (s : jsstring) :
  forallb is_word tg = true -> is_word x = false -> (x =? nl)%N = false ->
  scan_block (fence ++ tg ++ x :: s) = None.
Proof.
  intros W Hx Hn. unfold scan_block. rewrite strip_fence_app.
  assert (skip_word (tg ++ x :: s) = x :: s) as ->.
  { induction tg as [|c tg IH]; cbn [app skip_word].
    - now rewrite Hx.
    - cbn [forallb] in W. apply andb_prop in W as [-> W]. auto. }
  now rewrite Hn.
Qed.

(** X15. The opening line of a block has to end right after the tag.
    When anything but a newline follows the word characters after the
    opening fence (the + of c++, a space, the carriage return of a
    CRLF line end), the block is not taken: on a review whose only
    fences are the two of such a block, handleCopyCode finds no code. *)
Theorem opening_line_must_end_after_tag (st : state)
    (pre tg : jsstring) (x : code_unit) (body post : jsstring) :
  forallb is_word tg = true ->
  is_word x = false ->
  (x =? nl)%N = false ->
  has_fence pre = false ->
  has_fence (bt :: bt :: tg ++ x :: body) = false ->
  has_fence (bt :: bt :: post) = false ->
  review st = pre ++ fence ++ tg ++ x :: body ++ fence ++ post ->
  matchAll code_fence (review st) = [] /\
  handleCopyCode st = ([ToastError msg_no_code_found], inr tt).
Proof.
  intros W Hx Hn Hpre Hbody Hpost E.
  assert (exec code_fence (review st) = None) as Hex.
  { rewrite E, (exec_skip_prefix _ _ Hpre), exec_unfold.
    rewrite (@scan_block_line_goes_on tg x (body ++ fence ++ post) W Hx Hn).
    cbn [fence app].
    replace (bt :: bt :: tg ++ x :: body ++ bt :: bt :: bt :: post)
      with ((bt :: bt :: tg ++ x :: body) ++ fence ++ post)
      by (cbn [app fence]; do 2 f_equal; now flatten_app).
    rewrite (exec_skip_prefix _ _ Hbody), exec_unfold.
    rewrite scan_block_unclosed
      by now apply (has_fence_app_false [bt; bt] post).
    cbn [fence app]. now apply exec_no_fence. }
  assert (matchAll code_fence (review st) = []) as Hm
    by now rewrite matchAll_step, Hex.
  split; [exact Hm|].
  apply (handleCopyCode_segments st []); [|exact Hm].
  rewrite E. now destruct pre.
Qed.

Lemma opening_line_must_end_after_tag_witness :
  matchAll code_fence
    (fence ++ js "js" ++ 13%N :: nl :: js "foo()" ++ 13%N :: nl :: fence) = []
  /\
  handleCopyCode
    (state_of_review
       (fence ++ js "js" ++ 13%N :: nl :: js "foo()" ++ 13%N :: nl :: fence))
  = ([ToastError msg_no_code_found], inr tt).
Proof.
  apply (@opening_line_must_end_after_tag
           (state_of_review
              (fence ++ js "js" ++ 13%N :: nl :: js "foo()"
               ++ 13%N :: nl :: fence))
           [] (js "js") 13%N (nl :: js "foo()" ++ [13%N; nl]) []);
    reflexivity.
Defined.

End OpeningLine.
